(** * Tag query expressions of metrictank (package [tagquery])

    A shallow embedding of [expr/tagquery/expression.go] and
    [expr/tagquery/expression_not_match.go]: the expression parser, the
    [NOT_MATCH] expression with its cached metric definition filter, the
    filter combinator and the cost ordering of expressions.

    Go strings are byte strings: they are modelled as [string] (a list of
    [ascii] bytes).  Go's runtime panics (index or slice out of range) are an
    explicit outcome, so that their absence is a theorem. *)

From Stdlib Require Import Ascii ZArith Bool Lia OrderedTypeEx.
From Stdlib Require String.
From stdpp Require Import base list gmap strings sorting.

Local Open Scope char_scope.
Local Open Scope stdpp_scope.

(** ** Errors, results and panics *)

(** A Go [error] built by [fmt.Errorf] is the message it carries. *)
Definition error := string.

Inductive outcome (A : Type) : Type :=
| Ok (a : A)
| Err (e : error)
| Panic.
Arguments Ok {A} a.
Arguments Err {A} e.
Arguments Panic {A}.

Global Instance outcome_ret : MRet outcome := fun A a => Ok a.

Global Instance outcome_bind : MBind outcome := fun A B f m =>
  match m with
  | Ok a => f a
  | Err e => Err e
  | Panic => Panic
  end.

Global Instance outcome_fmap : FMap outcome := fun A B f m =>
  match m with
  | Ok a => Ok (f a)
  | Err e => Err e
  | Panic => Panic
  end.

(** ** Go string primitives *)

(** [s[i]]: panics when [i] is out of range. *)
Definition index (s : string) (i : nat) : outcome ascii :=
  match String.get i s with
  | Some c => Ok c
  | None => Panic
  end.

(** [s[lo:hi]]: panics unless [lo <= hi <= len(s)]. *)
Definition slice (s : string) (lo hi : nat) : outcome string :=
  if (lo <=? hi)%nat && (hi <=? String.length s)%nat
  then Ok (String.substring lo (hi - lo) s)
  else Panic.

(** [strings.HasPrefix(s, prefix)]. *)
Definition HasPrefix (s prefix : string) : bool := String.prefix prefix s.

Definition dquote : string := String (ascii_of_nat 34) EmptyString.

(** [const invalidExpressionError = "Invalid expression: %s"], formatted. *)
Definition invalidExpressionError (expr : string) : error :=
  "Invalid expression: " +:+ expr.

Definition keyValidationError (k expr err : string) : error :=
  "Error when validating key " +:+ dquote +:+ k +:+ dquote +:+
  " of expression " +:+ dquote +:+ expr +:+ dquote +:+ ": " +:+ err.

Definition invalidOperatorError (expr : string) : error :=
  "ParseExpression: Invalid operator in expression " +:+ expr.

(** ** Operators and decisions *)

(** [type ExpressionOperator uint16].  The nine operators are declared in
    [expression.go]; [MATCH_ALL] and [MATCH_NONE] are named by the cost table
    of [SortByFilterOrder] and declared elsewhere in the package. *)
Inductive ExpressionOperator : Type :=
| EQUAL
| NOT_EQUAL
| MATCH
| MATCH_TAG
| NOT_MATCH
| PREFIX
| PREFIX_TAG
| HAS_TAG
| NOT_HAS_TAG
| MATCH_ALL
| MATCH_NONE.

Global Instance ExpressionOperator_eq_dec : EqDecision ExpressionOperator.
Proof. solve_decision. Defined.

(** [type FilterDecision uint8]: [None], [Fail], [Pass]. *)
Inductive FilterDecision : Type :=
| DecNone
| Fail
| Pass.

Global Instance FilterDecision_eq_dec : EqDecision FilterDecision.
Proof. solve_decision. Defined.

(** [ExpressionOperator.StringIntoBuilder]: the token appended to the builder
    ([MATCH_ALL] and [MATCH_NONE] fall through the switch and append nothing). *)
Definition operator_token (o : ExpressionOperator) : string :=
  match o with
  | EQUAL => "="
  | NOT_EQUAL => "!="
  | MATCH => "=~"
  | MATCH_TAG => "=~"
  | NOT_MATCH => "!=~"
  | PREFIX => "^="
  | PREFIX_TAG => "^="
  | HAS_TAG => "!="
  | NOT_HAS_TAG => "="
  | MATCH_ALL => ""
  | MATCH_NONE => ""
  end.

(** ** The collaborators of the package

    The regular expression engine (Go's [regexp]), the key validation
    ([validateQueryExpressionTagKey]) and the configured cache size
    ([var matchCacheSize int]) are not part of the two files: the model is
    parametric in them. *)
Class Collaborators : Type := {
  Regexp : Type;
  (** [regexp.Compile] *)
  Compile : string -> Regexp + error;
  (** [Regexp.MatchString] *)
  MatchString : Regexp -> string -> bool;
  (** [validateQueryExpressionTagKey]: [None] is Go's [nil] error. *)
  validateQueryExpressionTagKey : string -> option error;
  (** [matchCacheSize], a Go [int] (64 bits). *)
  matchCacheSize : Z
}.

Section Tagquery.

Context `{C : Collaborators}.

(** ** Expressions *)

(** Modelled from the spec: the struct [expressionCommon] is declared outside
    the two files.  [ParseExpression] assigns its fields [key] and [value],
    [expressionNotMatch.GetDefaultDecision] reads its field [matchesEmpty];
    a field that is never assigned keeps Go's zero value ([false]). *)
Record expressionCommon : Type := {
  key : string;
  value : string;
  matchesEmpty : bool
}.

(** [expressionCommon{}] *)
Definition expressionCommon_zero : expressionCommon :=
  {| key := ""; value := ""; matchesEmpty := false |}.

Definition set_key (c : expressionCommon) (k : string) : expressionCommon :=
  {| key := k; value := value c; matchesEmpty := matchesEmpty c |}.

Definition set_value (c : expressionCommon) (v : string) : expressionCommon :=
  {| key := key c; value := v; matchesEmpty := matchesEmpty c |}.

(** [type expressionNotMatch struct { expressionCommon; valueRe *regexp.Regexp }] *)
Record expressionNotMatch : Type := {
  common : expressionCommon;
  valueRe : Regexp
}.

(** The nine variants behind the [Expression] interface.  Apart from
    [expressionNotMatch] their structs are declared outside the two files;
    each carries what [ParseExpression] puts into its composite literal.
    The second literal of [expressionMatchTag] leaves [valueRe] nil. *)
Inductive Expression : Type :=
| Equal (c : expressionCommon)
| NotEqual (c : expressionCommon)
| Match (c : expressionCommon) (re : Regexp)
| MatchTag (c : expressionCommon) (re : option Regexp)
| NotMatch (e : expressionNotMatch)
| Prefix (c : expressionCommon)
| PrefixTag (c : expressionCommon)
| HasTag (c : expressionCommon)
| NotHasTag (c : expressionCommon).

Definition common_of (e : Expression) : expressionCommon :=
  match e with
  | Equal c | NotEqual c | Match c _ | MatchTag c _
  | Prefix c | PrefixTag c | HasTag c | NotHasTag c => c
  | NotMatch e => common e
  end.

(** Modelled from the spec: [GetKey] and [GetValue] are the accessors of
    [expressionCommon], which is declared outside the two files. *)
Definition GetKey (e : Expression) : string := key (common_of e).
Definition GetValue (e : Expression) : string := value (common_of e).

(** ** [expressionNotMatch] *)

Definition expressionNotMatch_GetOperator (e : expressionNotMatch) : ExpressionOperator :=
  NOT_MATCH.

Definition expressionNotMatch_RequiresNonEmptyValue (e : expressionNotMatch) : bool :=
  false.

Definition expressionNotMatch_HasRe (e : expressionNotMatch) : bool :=
  true.

Definition expressionNotMatch_ValuePasses (e : expressionNotMatch) (v : string) : bool :=
  negb (MatchString (valueRe e) v).

Definition expressionNotMatch_GetDefaultDecision (e : expressionNotMatch) : FilterDecision :=
  if matchesEmpty (common e) then Fail else Pass.

(** [StringIntoBuilder] appends to the builder: the builder is its content. *)
Definition expressionNotMatch_StringIntoBuilder
    (e : expressionNotMatch) (builder : string) : string :=
  ((builder +:+ key (common e)) +:+ "!=~") +:+ value (common e).

(** [GetOperator] behind the interface: [expressionNotMatch.GetOperator] for
    [NOT_MATCH]; the other variants are named after their operator. *)
Definition GetOperator (e : Expression) : ExpressionOperator :=
  match e with
  | Equal _ => EQUAL
  | NotEqual _ => NOT_EQUAL
  | Match _ _ => MATCH
  | MatchTag _ _ => MATCH_TAG
  | NotMatch e' => expressionNotMatch_GetOperator e'
  | Prefix _ => PREFIX
  | PrefixTag _ => PREFIX_TAG
  | HasTag _ => HAS_TAG
  | NotHasTag _ => NOT_HAS_TAG
  end.

(** ** [ParseExpression] *)

(** The loop labelled [FIND_OPERATOR]: [n] counts the iterations that the
    guard [pos < len(expr)] still allows.  The result is the position the
    loop stops at with the flags [prefix] and [not]. *)
Fixpoint FIND_OPERATOR (n : nat) (expr : string) (pos : nat)
  : outcome (nat * bool * bool) :=
  match n with
  | O => Ok (pos, false, false)
  | S n' =>
      c ← index expr pos;
      if Ascii.eqb c "=" then Ok (pos, false, false)
      else if Ascii.eqb c "!" then Ok (pos, false, true)
      else if Ascii.eqb c "^" then Ok (pos, true, false)
      else if Ascii.eqb c ";" then Err (invalidExpressionError expr)
      else FIND_OPERATOR n' expr (S pos)
  end.

(** The second loop: [;] (byte 59) is not allowed in the value. *)
Fixpoint scan_value (n : nat) (expr : string) (pos : nat) : outcome unit :=
  match n with
  | O => Ok tt
  | S n' =>
      c ← index expr pos;
      if Ascii.eqb c (ascii_of_nat 59) then Err (invalidExpressionError expr)
      else scan_value n' expr (S pos)
  end.

(** The operator derived from the flags and the value. *)
Definition derive_operator (not prefix regex : bool) (v : string) : ExpressionOperator :=
  if not then
    if (String.length v =? 0)%nat then HAS_TAG
    else if regex then NOT_MATCH
    else NOT_EQUAL
  else
    if prefix then
      if (String.length v =? 0)%nat then HAS_TAG else PREFIX
    else if (String.length v =? 0)%nat then NOT_HAS_TAG
    else if regex then MATCH
    else EQUAL.

(** The remapping under the special key [__tag]. *)
Definition remap_tag (operator : ExpressionOperator) : ExpressionOperator :=
  if decide (operator = PREFIX) then PREFIX_TAG
  else if decide (operator = MATCH) then MATCH_TAG
  else operator.

(** The final part of [ParseExpression]: the regex rewrite, the compilation
    and the composite literal of the variant. *)
Definition build_expression (expr : string) (resCommon : expressionCommon)
    (operator : ExpressionOperator) : outcome Expression :=
  if decide (operator = MATCH \/ operator = NOT_MATCH \/ operator = MATCH_TAG) then
    unanchored ← (if (0 <? String.length (value resCommon))%nat
                  then c ← index (value resCommon) 0; Ok (negb (Ascii.eqb c "^"))
                  else Ok false);
    let resCommon :=
      if (unanchored : bool)
      then set_value resCommon (("^(?:" +:+ value resCommon) +:+ ")")
      else resCommon in
    match Compile (value resCommon) with
    | inr err => Err err
    | inl re =>
        match operator with
        | MATCH => Ok (Match resCommon re)
        | NOT_MATCH => Ok (NotMatch {| common := resCommon; valueRe := re |})
        | MATCH_TAG => Ok (MatchTag resCommon (Some re))
        | _ => Err (invalidOperatorError expr)
        end
    end
  else
    match operator with
    | EQUAL => Ok (Equal resCommon)
    | NOT_EQUAL => Ok (NotEqual resCommon)
    | PREFIX => Ok (Prefix resCommon)
    | MATCH_TAG => Ok (MatchTag resCommon None)
    | HAS_TAG => Ok (HasTag resCommon)
    | NOT_HAS_TAG => Ok (NotHasTag resCommon)
    | PREFIX_TAG => Ok (PrefixTag resCommon)
    | _ => Err (invalidOperatorError expr)
    end.

Definition ParseExpression (expr : string) : outcome Expression :=
  let resCommon := expressionCommon_zero in
  (* scan up to operator to get key *)
  '(pos, prefix, not) ← FIND_OPERATOR (String.length expr - 0) expr 0;
  (* key must not be empty *)
  if (pos =? 0)%nat then Err (invalidExpressionError expr) else
  k ← slice expr 0 pos;
  let resCommon := set_key resCommon k in
  match validateQueryExpressionTagKey (key resCommon) with
  | Some err => Err (keyValidationError (key resCommon) expr err)
  | None =>
      (* shift over the !/^ characters *)
      let pos := if not || prefix then S pos else pos in
      if (String.length expr <=? pos)%nat then Err (invalidExpressionError expr) else
      c ← index expr pos;
      if negb (Ascii.eqb c "=") then Err (invalidExpressionError expr) else
      let pos := S pos in
      tilde ← (if (pos <? String.length expr)%nat
               then c ← index expr pos; Ok (Ascii.eqb c "~")
               else Ok false);
      (* ^=~ is not a valid operator *)
      if tilde && prefix then Err (invalidExpressionError expr) else
      let regex := tilde in
      let pos := if tilde then S pos else pos in
      let valuePos := pos in
      _ ← scan_value (String.length expr - pos) expr pos;
      v ← slice expr valuePos (String.length expr);
      let resCommon := set_value resCommon v in
      let operator := derive_operator not prefix regex (value resCommon) in
      (* special key to match on tag instead of a value *)
      if String.eqb (key resCommon) "__tag" then
        if not || (String.length (value resCommon) =? 0)%nat
        then Err (invalidExpressionError expr)
        else build_expression expr resCommon (remap_tag operator)
      else build_expression expr resCommon operator
  end.

(** [ParseExpressions]: the first error ends the loop. *)
Fixpoint ParseExpressions (expressions : list string) : outcome (list Expression) :=
  match expressions with
  | [] => Ok []
  | expr :: rest =>
      expression ← ParseExpression expr;
      res ← ParseExpressions rest;
      Ok (expression :: res)
  end.

(** ** The metric definition filter of [expressionNotMatch] *)

(** A Go [int32] as a [Z] in its range; [int32(x)] and the atomic addition
    wrap around. *)
Definition int32 (z : Z) : Z := ((z + 2 ^ 31) `mod` 2 ^ 32 - 2 ^ 31)%Z.

(** The variables the third closure of [GetMetricDefinitionFilter] captures:
    the two [sync.Map]s, used as sets of strings, and their counters. *)
Record Cache : Type := {
  matchCache : gset string;
  missCache : gset string;
  currentMatchCacheSize : Z;
  currentMissCacheSize : Z
}.

(** [var matchCache, missCache sync.Map] and the two zero counters. *)
Definition Cache_zero : Cache :=
  {| matchCache := ∅; missCache := ∅;
     currentMatchCacheSize := 0; currentMissCacheSize := 0 |}.

(** [type MetricDefinitionFilter func(name string, tags []string) FilterDecision].
    A closure may own state: a call takes the state it finds and returns the
    decision with the state it leaves. *)
Definition MetricDefinitionFilter (S : Type) : Type :=
  string -> list string -> S -> outcome (FilterDecision * S).

Definition store_match (v : string) (st : Cache) : Cache :=
  if (currentMatchCacheSize st <? int32 matchCacheSize)%Z
  then {| matchCache := {[ v ]} ∪ matchCache st;
          missCache := missCache st;
          currentMatchCacheSize := int32 (currentMatchCacheSize st + 1);
          currentMissCacheSize := currentMissCacheSize st |}
  else st.

Definition store_miss (v : string) (st : Cache) : Cache :=
  if (currentMissCacheSize st <? int32 matchCacheSize)%Z
  then {| matchCache := matchCache st;
          missCache := {[ v ]} ∪ missCache st;
          currentMatchCacheSize := currentMatchCacheSize st;
          currentMissCacheSize := int32 (currentMissCacheSize st + 1) |}
  else st.

(** The loop [for _, tag := range tags] of the third closure. *)
Fixpoint scan_tags (e : expressionNotMatch) (prefix : string)
    (tags : list string) (st : Cache) : outcome (FilterDecision * Cache) :=
  match tags with
  | [] => Ok (DecNone, st)
  | tag :: tags' =>
      if negb (HasPrefix tag prefix) then scan_tags e prefix tags' st
      (* if value is empty, every metric which has this tag passes *)
      else if String.eqb (value (common e)) "" then Ok (Pass, st)
      else
        v ← slice tag (String.length prefix) (String.length tag);
        (* reduce regex matching by looking up cached non-matches *)
        if bool_decide (v ∈ missCache st) then Ok (Pass, st)
        (* reduce regex matching by looking up cached matches *)
        else if bool_decide (v ∈ matchCache st) then Ok (Fail, st)
        else if MatchString (valueRe e) v then Ok (Fail, store_match v st)
        else Ok (Pass, store_miss v st)
  end.

Definition expressionNotMatch_GetMetricDefinitionFilter (e : expressionNotMatch)
  : MetricDefinitionFilter Cache :=
  if String.eqb (key (common e)) "name" then
    if String.eqb (value (common e)) "" then
      (* every metric has a name *)
      fun _ _ st => Ok (Pass, st)
    else
      fun name _ st =>
        if MatchString (valueRe e) name then Ok (Fail, st) else Ok (Pass, st)
  else
    let prefix := key (common e) +:+ "=" in
    fun _ tags st => scan_tags e prefix tags st.

(** ** [MetricDefinitionFilters.Filter] *)

Fixpoint Filter {S : Type} (m : list (MetricDefinitionFilter S))
    (name : string) (tags : list string) (st : S) : outcome (FilterDecision * S) :=
  match m with
  | [] => Ok (DecNone, st)
  | f :: m' =>
      '(decision, st') ← f name tags st;
      if decide (decision = Fail) then Ok (Fail, st')
      else if decide (decision = Pass) then Ok (Pass, st')
      else Filter m' name tags st'
  end.

(** ** [Expressions.SortByFilterOrder] *)

Definition costByOperator (o : ExpressionOperator) : Z :=
  match o with
  | MATCH_NONE => 0
  | EQUAL => 1
  | HAS_TAG => 2
  | PREFIX => 3
  | PREFIX_TAG => 4
  | NOT_EQUAL => 5
  | NOT_HAS_TAG => 6
  | MATCH => 7
  | MATCH_TAG => 8
  | NOT_MATCH => 9
  | MATCH_ALL => 10
  end%Z.

(** The function literal handed to [sort.Slice], on the two elements that
    its indices select. *)
Definition less (ei ej : Expression) : bool :=
  if decide (GetOperator ei = GetOperator ej) then
    if String.eqb (GetKey ei) (GetKey ej)
    then String.ltb (GetValue ei) (GetValue ej)
    else String.ltb (GetKey ei) (GetKey ej)
  else (costByOperator (GetOperator ei) <? costByOperator (GetOperator ej))%Z.

(** [ExpressionsAreEqual] *)
Definition ExpressionsAreEqual (expr1 expr2 : Expression) : bool :=
  String.eqb (GetKey expr1) (GetKey expr2)
  && bool_decide (GetOperator expr1 = GetOperator expr2)
  && String.eqb (GetValue expr1) (GetValue expr2).

End Tagquery.

(** ** The grammar of an expression, read by the shape of the text

    [ParseExpression] walks the text by positions.  The definitions of this
    section describe the same text by its parts: the key, the flag byte, the
    [=], the [~] and the value. *)
Section Grammar.

Context `{C : Collaborators}.

(** The bytes at which the first loop stops. *)
Definition stop_byte (c : ascii) : bool :=
  Ascii.eqb c "=" || Ascii.eqb c "!" || Ascii.eqb c "^" || Ascii.eqb c ";".

(** A text in which the first loop finds no byte to stop at. *)
Fixpoint is_key (k : string) : bool :=
  match k with
  | EmptyString => true
  | String c k' => negb (stop_byte c) && is_key k'
  end.

Fixpoint has_semicolon (v : string) : bool :=
  match v with
  | EmptyString => false
  | String c v' => Ascii.eqb c ";" || has_semicolon v'
  end.

(** The longest prefix without a stop byte, and what follows it. *)
Fixpoint split_key (s : string) : string * string :=
  match s with
  | EmptyString => (EmptyString, EmptyString)
  | String c s' =>
      if stop_byte c then (EmptyString, s)
      else let '(k, rest) := split_key s' in (String c k, rest)
  end.

Definition starts_with (c : ascii) (s : string) : bool :=
  match s with
  | String c' _ => Ascii.eqb c' c
  | EmptyString => false
  end.

(** What [ParseExpression] does once key, flags and value are known. *)
Definition finish (expr k : string) (not prefix regex : bool) (v : string)
  : outcome Expression :=
  if has_semicolon v then Err (invalidExpressionError expr)
  else
    let resCommon := {| key := k; value := v; matchesEmpty := false |} in
    let operator := derive_operator not prefix regex v in
    if String.eqb k "__tag" then
      if not || (String.length v =? 0)%nat
      then Err (invalidExpressionError expr)
      else build_expression expr resCommon (remap_tag operator)
    else build_expression expr resCommon operator.

(** The text after the key and its flag byte: [=], an optional [~], the value. *)
Definition parse_operator (expr k : string) (not prefix : bool) (r : string)
  : outcome Expression :=
  match r with
  | String c r' =>
      if Ascii.eqb c "=" then
        if starts_with "~" r' then
          if prefix then Err (invalidExpressionError expr)
          else finish expr k not prefix true (String.substring 1 (String.length r' - 1) r')
        else finish expr k not prefix false r'
      else Err (invalidExpressionError expr)
  | EmptyString => Err (invalidExpressionError expr)
  end.

Definition parse_shape (expr : string) : outcome Expression :=
  let '(k, rest) := split_key expr in
  if starts_with ";" rest then Err (invalidExpressionError expr)
  else if (String.length k =? 0)%nat then Err (invalidExpressionError expr)
  else
    match validateQueryExpressionTagKey k with
    | Some err => Err (keyValidationError k expr err)
    | None =>
        if starts_with "!" rest
        then parse_operator expr k true false (String.substring 1 (String.length rest - 1) rest)
        else if starts_with "^" rest
        then parse_operator expr k false true (String.substring 1 (String.length rest - 1) rest)
        else parse_operator expr k false false rest
    end.

(** *** The vocabulary of the specification *)

(** The text of an expression with the given parts: [<key>[!|^]=[~]<value>]. *)
Definition expression_text (k : string) (not prefix regex : bool) (v : string)
  : string :=
  k +:+ (if not then "!" else if prefix then "^" else "")
    +:+ "=" +:+ (if regex then "~" else "") +:+ v.

(** The parts are read off the text without ambiguity: the key holds no stop
    byte, at most one flag is set and, without the regex flag, the value does
    not begin with [~]. *)
Definition canonical (k : string) (not prefix regex : bool) (v : string) : Prop :=
  is_key k = true /\ not && prefix = false /\
  (regex = false -> starts_with "~" v = false).

(** The table of the specification: the operator by the flags [not],
    [prefix], [regex] and whether the value is empty. *)
Definition spec_operator (not prefix regex empty : bool) : ExpressionOperator :=
  match not, prefix, regex, empty with
  | true, _, _, true => HAS_TAG
  | true, _, true, false => NOT_MATCH
  | true, _, false, false => NOT_EQUAL
  | false, true, _, true => HAS_TAG
  | false, true, _, false => PREFIX
  | false, false, _, true => NOT_HAS_TAG
  | false, false, true, false => MATCH
  | false, false, false, false => EQUAL
  end.

(** The remapping of the reserved key [__tag]. *)
Definition spec_tag_remap (k : string) (o : ExpressionOperator) : ExpressionOperator :=
  if String.eqb k "__tag" then
    match o with
    | PREFIX => PREFIX_TAG
    | MATCH => MATCH_TAG
    | _ => o
    end
  else o.

Definition is_regex_operator (o : ExpressionOperator) : bool :=
  match o with
  | MATCH | NOT_MATCH | MATCH_TAG => true
  | _ => false
  end.

(** The pattern handed to the compiler for the value [v] of a regex operator. *)
Definition anchored (v : string) : string :=
  if starts_with "^" v then v else ("^(?:" +:+ v) +:+ ")".

(** Modelled from the spec: [StringIntoBuilder] of the variants other than
    [expressionNotMatch] is declared outside the two files; it appends the
    canonical form key, operator token, value. *)
Definition StringIntoBuilder (e : Expression) (builder : string) : string :=
  match e with
  | NotMatch e' => expressionNotMatch_StringIntoBuilder e' builder
  | _ => ((builder +:+ GetKey e) +:+ operator_token (GetOperator e)) +:+ GetValue e
  end.

(** Modelled from the spec: [RequiresNonEmptyValue] of the variants other
    than [expressionNotMatch] is declared outside the two files; it is false
    for [HAS_TAG] and [NOT_HAS_TAG] and true for the other operators. *)
Definition RequiresNonEmptyValue (e : Expression) : bool :=
  match e with
  | NotMatch e' => expressionNotMatch_RequiresNonEmptyValue e'
  | HasTag _ | NotHasTag _ => false
  | _ => true
  end.

(** *** Malformed texts

    The parts of a text as the specification names them: the key is
    everything before the first [=], [!] or [^]; [!] and [^] are flags; [=]
    must follow; [~] after it is the regex flag; the rest is the value. *)
Definition terminator (c : ascii) : bool :=
  Ascii.eqb c "=" || Ascii.eqb c "!" || Ascii.eqb c "^".

Fixpoint text_key (s : string) : string :=
  match s with
  | EmptyString => EmptyString
  | String c s' => if terminator c then EmptyString else String c (text_key s')
  end.

Fixpoint text_rest (s : string) : string :=
  match s with
  | EmptyString => EmptyString
  | String c s' => if terminator c then s else text_rest s'
  end.

Definition tail (s : string) : string :=
  match s with
  | EmptyString => EmptyString
  | String _ s' => s'
  end.

Definition text_not (s : string) : bool := starts_with "!" (text_rest s).
Definition text_prefix (s : string) : bool := starts_with "^" (text_rest s).

Definition after_flag (s : string) : string :=
  if text_not s || text_prefix s then tail (text_rest s) else text_rest s.

Definition text_has_eq (s : string) : bool := starts_with "=" (after_flag s).
Definition text_regex (s : string) : bool := starts_with "~" (tail (after_flag s)).

Definition text_value (s : string) : string :=
  if text_regex s then tail (tail (after_flag s)) else tail (after_flag s).

(** A [;] in the key, or an empty key. *)
Definition key_malformed (expr : string) : bool :=
  has_semicolon (text_key expr) || String.eqb (text_key expr) "".

(** No [=] after the key and its flag byte, or [^] combined with [=~]. *)
Definition operator_malformed (expr : string) : bool :=
  negb (text_has_eq expr) || (text_prefix expr && text_regex expr).

(** A [;] in the value. *)
Definition value_malformed (expr : string) : bool :=
  has_semicolon (text_value expr).

(** The key [__tag] with [!] or with an empty value. *)
Definition tag_malformed (expr : string) : bool :=
  String.eqb (text_key expr) "__tag"
  && (text_not expr || String.eqb (text_value expr) "").

Definition structurally_malformed (expr : string) : bool :=
  key_malformed expr || operator_malformed expr
  || value_malformed expr || tag_malformed expr.

(** Key validation rejects the key. *)
Definition key_rejected (expr : string) : Prop :=
  validateQueryExpressionTagKey (text_key expr) <> None.

(** The (possibly rewritten) regex value fails to compile. *)
Definition regex_rejected (expr : string) : Prop :=
  text_regex expr = true /\ text_value expr <> "" /\
  exists err, Compile (anchored (text_value expr)) = inr err.

Definition malformed (expr : string) : Prop :=
  structurally_malformed expr = true \/ key_rejected expr \/ regex_rejected expr.

(** The composite literals of the regex variants. *)
Definition mkNotMatch (c : expressionCommon) (re : Regexp) : Expression :=
  NotMatch {| common := c; valueRe := re |}.

Definition mkMatchTag (c : expressionCommon) (re : Regexp) : Expression :=
  MatchTag c (Some re).

(** The outcome of compiling [pattern] and storing it as the value of a
    regex variant with key [k]. *)
Definition compiled (mk : expressionCommon -> Regexp -> Expression)
    (k pattern : string) : outcome Expression :=
  match Compile pattern with
  | inl re => Ok (mk {| key := k; value := pattern; matchesEmpty := false |} re)
  | inr err => Err err
  end.

End Grammar.

(** ** Collections of expressions *)
Section Collections.

Context `{C : Collaborators}.

(** [Expressions.Strings]: one builder serves every expression; it is read
    and reset after each. *)
Fixpoint Strings_from (e : list Expression) (builder : string) : list string :=
  match e with
  | [] => []
  | x :: rest =>
      let builder := StringIntoBuilder x builder in
      builder :: Strings_from rest ""
  end.

Definition Strings (e : list Expression) : list string := Strings_from e "".

(** The inner loop of [findInitialExpression]: the first position, counted
    from [i], of an expression with operator [op] that requires a non-empty
    value. *)
Fixpoint find_from (op : ExpressionOperator) (e : list Expression) (i : Z)
  : option Z :=
  match e with
  | [] => None
  | x :: rest =>
      if bool_decide (GetOperator x = op) && RequiresNonEmptyValue x then Some i
      else find_from op rest (i + 1)
  end.

(** The outer loop over the operators in their order of preference. *)
Fixpoint find_preferred (ops : list ExpressionOperator) (e : list Expression) : Z :=
  match ops with
  | [] => -1
  | op :: ops' =>
      match find_from op e 0 with
      | Some i => i
      | None => find_preferred ops' e
      end
  end.

Definition viable_operators : list ExpressionOperator :=
  [EQUAL; HAS_TAG; PREFIX; PREFIX_TAG; MATCH; MATCH_TAG; NOT_MATCH].

Definition findInitialExpression (e : list Expression) : Z :=
  find_preferred viable_operators e.

(** An expression that [findInitialExpression] may start with under the
    operator [op]. *)
Definition viable (op : ExpressionOperator) (x : Expression) : Prop :=
  GetOperator x = op /\ RequiresNonEmptyValue x = true.

(** The text [key], operator token, [value] of an expression, the token
    being what [ExpressionOperator.StringIntoBuilder] appends. *)
Definition canonical_text (e : Expression) : string :=
  GetKey e +:+ operator_token (GetOperator e) +:+ GetValue e.

(** The cache holds no more values than its counters say, the counters stay
    between zero and the configured size, and no value is in both caches. *)
Definition cache_bounded (st : Cache) : Prop :=
  (0 <= currentMatchCacheSize st <= Z.max 0 (int32 matchCacheSize))%Z /\
  (0 <= currentMissCacheSize st <= Z.max 0 (int32 matchCacheSize))%Z /\
  (Z.of_nat (size (matchCache st)) <= currentMatchCacheSize st)%Z /\
  (Z.of_nat (size (missCache st)) <= currentMissCacheSize st)%Z.

(** What one call of the closure may do to the cache: nothing, or store one
    value that neither cache holds. *)
Definition cache_step (st st' : Cache) : Prop :=
  st' = st \/
  (exists v : string,
     (v ∉ matchCache st) /\ (v ∉ missCache st) /\
     (st' = store_match v st \/ st' = store_miss v st)).

End Collections.

(** ** The states of the filter's cache *)
Section FilterStates.

Context `{C : Collaborators}.

(** The tag carries the key of the expression: it begins with [<key>=]. *)
Definition has_key (e : expressionNotMatch) (tag : string) : bool :=
  HasPrefix tag (key (common e) +:+ "=").

(** The entries of the two caches agree with the pattern. *)
Definition cache_ok (e : expressionNotMatch) (st : Cache) : Prop :=
  (forall v : string, v ∈ matchCache st -> MatchString (valueRe e) v = true) /\
  (forall v : string, v ∈ missCache st -> MatchString (valueRe e) v = false).

(** The states that calls of the closure lead to from the empty cache. *)
Inductive reachable (e : expressionNotMatch) : Cache -> Prop :=
| reachable_zero : reachable e Cache_zero
| reachable_call (st st' : Cache) (name : string) (tags : list string)
    (d : FilterDecision) :
    reachable e st ->
    expressionNotMatch_GetMetricDefinitionFilter e name tags st = Ok (d, st') ->
    reachable e st'.

(** The decision on a value the pattern is tested on. *)
Definition value_decision (e : expressionNotMatch) (v : string) : FilterDecision :=
  if String.eqb (value (common e)) "" then Pass
  else if MatchString (valueRe e) v then Fail else Pass.

End FilterStates.

(** ** Runs of a list of filters and the filter order *)
Section Orders.

Context `{C : Collaborators}.

(** Every filter of the list returns [None]; the state is threaded through. *)
Inductive all_none {S : Type} (name : string) (tags : list string)
  : list (MetricDefinitionFilter S) -> S -> S -> Prop :=
| all_none_nil (st : S) : all_none name tags [] st st
| all_none_cons (f : MetricDefinitionFilter S) (m : list (MetricDefinitionFilter S))
    (st st1 st2 : S) :
    f name tags st = Ok (DecNone, st1) ->
    all_none name tags m st1 st2 ->
    all_none name tags (f :: m) st st2.

(** What the order of [SortByFilterOrder] looks at: the cost of the operator,
    the key and the value. *)
Definition rank (e : Expression) : Z * string * string :=
  (costByOperator (GetOperator e), GetKey e, GetValue e).

(** Ascending by cost, then by key, then by value, strings compared
    lexicographically by their bytes. *)
Definition rank_le (r1 r2 : Z * string * string) : Prop :=
  let '(c1, k1, v1) := r1 in
  let '(c2, k2, v2) := r2 in
  (c1 < c2)%Z \/
  (c1 = c2 /\
   (String.ltb k1 k2 = true \/ (k1 = k2 /\ String.leb v1 v2 = true))).

Definition filter_order_le (e1 e2 : Expression) : Prop :=
  rank_le (rank e1) (rank e2).

(** What [sort.Slice] asks of its [less]: Go's documentation of
    [sort.Interface] wants a transitive ordering whose incomparability is
    transitive too; an element is never less than itself. *)
Definition less_ordering {A : Type} (less : A -> A -> bool) : Prop :=
  (forall a, less a a = false) /\
  (forall a b c, less a b = true -> less b c = true -> less a c = true) /\
  (forall a b c, less a b = false -> less b c = false -> less a c = false).

(** An expression that [ParseExpression] returns on some text. *)
Definition parsed (e : Expression) : Prop :=
  exists text : string, ParseExpression text = Ok e.

(** The regex of an expression is the compiled value and [matchesEmpty] is
    left at its zero value. *)
Definition well_formed (e : Expression) : Prop :=
  matchesEmpty (common_of e) = false /\
  match e with
  | Match c re => Compile (value c) = inl re
  | MatchTag c re => exists r, re = Some r /\ Compile (value c) = inl r
  | NotMatch e' => Compile (value (common e')) = inl (valueRe e')
  | _ => True
  end.

End Orders.

(** [sort.Slice] belongs to Go's library: the model takes it as a function
    from the slice and [less] to the sorted slice. *)
Section SortSlice.

Context `{C : Collaborators}.
Variable sort_Slice : forall A : Type, list A -> (A -> A -> bool) -> list A.


End SortSlice.

(** ** A reference instance of the collaborators

    Concrete inputs are evaluated with a small regular expression engine for
    a fragment of the RE2 syntax (literals, [.], [^], [$], groups,
    alternation, [*], [+], [?]): patterns outside the fragment are compile
    errors.  [MatchString] searches the text for a match, as Go does. *)
Module Reference.

Inductive re : Type :=
| Zero
| Eps
| Chr (c : ascii)
| Any
| Bol
| Eol
| Cat (r1 r2 : re)
| Alt (r1 r2 : re)
| Star (r : re).

(** [nullable bol eol r]: [r] matches the empty word at a position that is
    the beginning of the text iff [bol] and its end iff [eol]. *)
Fixpoint nullable (bol eol : bool) (r : re) : bool :=
  match r with
  | Zero | Chr _ | Any => false
  | Eps | Star _ => true
  | Bol => bol
  | Eol => eol
  | Cat r1 r2 => nullable bol eol r1 && nullable bol eol r2
  | Alt r1 r2 => nullable bol eol r1 || nullable bol eol r2
  end.

(** The derivative of [r] by the byte [c], read at a position that is the
    beginning of the text iff [bol]. *)
Fixpoint deriv (bol : bool) (c : ascii) (r : re) : re :=
  match r with
  | Zero | Eps | Bol | Eol => Zero
  | Chr c' => if Ascii.eqb c c' then Eps else Zero
  | Any => if Ascii.eqb c (ascii_of_nat 10) then Zero else Eps
  | Cat r1 r2 =>
      let left := Cat (deriv bol c r1) r2 in
      if nullable bol false r1 then Alt left (deriv bol c r2) else left
  | Alt r1 r2 => Alt (deriv bol c r1) (deriv bol c r2)
  | Star r1 => Cat (deriv bol c r1) (Star r1)
  end.

(** A match of [r] that starts at the head of [s] and ends anywhere. *)
Fixpoint match_here (bol : bool) (r : re) (s : string) : bool :=
  match s with
  | EmptyString => nullable bol true r
  | String c s' => nullable bol false r || match_here false (deriv bol c r) s'
  end.

Fixpoint search (bol : bool) (r : re) (s : string) : bool :=
  match_here bol r s ||
  match s with
  | EmptyString => false
  | String _ s' => search false r s'
  end.

Definition is_meta (c : ascii) : bool :=
  existsb (Ascii.eqb c) (String.list_ascii_of_string "\.+*?()|[]{}^$").

(** At most one repetition operator, which [?] may follow (non-greedy). *)
Definition parse_post (a : re) (s : string) : option (re * string) :=
  let lazy s :=
    match s with
    | String "?" s' => s'
    | _ => s
    end in
  let done r s :=
    match s with
    | String "*" _ | String "+" _ | String "?" _ => None
    | _ => Some (r, s)
    end in
  match s with
  | String "*" s' => done (Star a) (lazy s')
  | String "+" s' => done (Cat a (Star a)) (lazy s')
  | String "?" s' => done (Alt a Eps) (lazy s')
  | _ => Some (a, s)
  end.

Fixpoint parse_alt (n : nat) (s : string) : option (re * string) :=
  match n with
  | O => None
  | S n' =>
      '(r1, rest) ← parse_cat n' s;
      match rest with
      | String "|" rest' =>
          '(r2, rest'') ← parse_alt n' rest';
          Some (Alt r1 r2, rest'')
      | _ => Some (r1, rest)
      end
  end
with parse_cat (n : nat) (s : string) : option (re * string) :=
  match n with
  | O => None
  | S n' =>
      match s with
      | EmptyString | String "|" _ | String ")" _ => Some (Eps, s)
      | _ =>
          '(a, rest) ← parse_atom n' s;
          '(r1, rest') ← parse_post a rest;
          '(r2, rest'') ← parse_cat n' rest';
          Some (Cat r1 r2, rest'')
      end
  end
with parse_atom (n : nat) (s : string) : option (re * string) :=
  match n with
  | O => None
  | S n' =>
      let group body :=
        '(r, rest) ← parse_alt n' body;
        match rest with
        | String ")" rest' => Some (r, rest')
        | _ => None
        end in
      match s with
      | String "(" (String "?" (String ":" body)) => group body
      | String "(" (String "?" _) => None
      | String "(" body => group body
      | String "." rest => Some (Any, rest)
      | String "^" rest => Some (Bol, rest)
      | String "$" rest => Some (Eol, rest)
      | String "\" (String c rest) => if is_meta c then Some (Chr c, rest) else None
      | String c rest =>
          if existsb (Ascii.eqb c) (String.list_ascii_of_string "\*+?[{)")
          then None else Some (Chr c, rest)
      | EmptyString => None
      end
  end.

Definition compile (expr : string) : re + error :=
  match parse_alt (4 * String.length expr + 4) expr with
  | Some (r, EmptyString) => inl r
  | _ => inr ("error parsing regexp: " +:+ expr)
  end.

(** Keys are not empty and hold none of the bytes that end a key. *)
Definition validate (k : string) : option error :=
  if (String.length k =? 0)%nat then Some "tag query expression key must not be empty"
  else if existsb (fun c => existsb (Ascii.eqb c) (String.list_ascii_of_string ";!^="))
            (String.list_ascii_of_string k)
  then Some "tag query expression key contains a reserved byte"
  else None.

Definition collaborators : Collaborators :=
  {| Regexp := re;
     Compile := compile;
     MatchString := search true;
     validateQueryExpressionTagKey := validate;
     matchCacheSize := 1000 |}.

(** A sort for concrete inputs: stdpp's merge sort by "not less". *)
Definition not_less {A : Type} (less : A -> A -> bool) : relation A :=
  fun a b => less b a = false.

Global Instance not_less_dec {A : Type} (less : A -> A -> bool) :
  RelDecision (not_less less).
Proof. intros a b. unfold not_less. apply _. Defined.



(** A [NOT_MATCH] expression on the name whose value is empty. *)
Definition name_without_value : expressionNotMatch (C := collaborators) :=
  {| common := {| key := "name"; value := ""; matchesEmpty := false |};
     valueRe := (Eps : @Regexp collaborators) |}.

(** The [NOT_MATCH] expression parsed from [host!=~web.*]. *)
Definition host_not_web : expressionNotMatch (C := collaborators) :=
  Eval vm_compute in
    match ParseExpression (C := collaborators) "host!=~web.*" with
    | Ok (NotMatch e) => e
    | _ => name_without_value
    end.



(** The collection parsed from [a!=~x], [b=y] and [c!=]. *)
Definition sample_collection : list (Expression (C := collaborators)) :=
  match ParseExpressions (C := collaborators) ["a!=~x"; "b=y"; "c!="] with
  | Ok l => l
  | _ => []
  end.

End Reference.


(** * Theorems *)

(** ** Strings *)

Lemma app_cons (c : ascii) (a b : string) :
  String c a +:+ b = String c (a +:+ b).
Proof. reflexivity. Qed.

Lemma app_nil_l (b : string) : "" +:+ b = b.
Proof. reflexivity. Qed.

Lemma length_app (a b : string) :
  String.length (a +:+ b) = String.length a + String.length b.
Proof.
  induction a as [|c a IH]; [done|].
  rewrite app_cons. cbn. by rewrite IH.
Qed.

Lemma app_assoc_string (a b c : string) : (a +:+ b) +:+ c = a +:+ (b +:+ c).
Proof.
  induction a as [|x a IH]; [done|].
  rewrite !app_cons. by rewrite IH.
Qed.

Lemma get_app_r (p s : string) (i : nat) :
  String.get (String.length p + i) (p +:+ s) = String.get i s.
Proof.
  induction p as [|c p IH]; [done|].
  rewrite app_cons. cbn. apply IH.
Qed.

Lemma index_app_r (p s : string) (i : nat) :
  index (p +:+ s) (String.length p + i) = index s i.
Proof. unfold index. by rewrite get_app_r. Qed.

Lemma substring_all (s : string) : String.substring 0 (String.length s) s = s.
Proof. induction s as [|c s IH]; cbn; [done|]. by rewrite IH. Qed.

Lemma substring_app_l (p s : string) :
  String.substring 0 (String.length p) (p +:+ s) = p.
Proof.
  induction p as [|c p IH].
  - cbn. by destruct s.
  - rewrite app_cons. cbn. by rewrite IH.
Qed.

Lemma substring_app_r (p s : string) (n : nat) :
  String.substring (String.length p) n (p +:+ s) = String.substring 0 n s.
Proof.
  induction p as [|c p IH]; [done|].
  rewrite app_cons. cbn. apply IH.
Qed.

Lemma slice_prefix (p s : string) :
  slice (p +:+ s) 0 (String.length p) = Ok p.
Proof.
  unfold slice. rewrite length_app.
  replace (String.length p <=? String.length p + String.length s)%nat with true
    by (symmetry; apply Nat.leb_le; lia).
  cbn. by rewrite Nat.sub_0_r, substring_app_l.
Qed.

Lemma slice_suffix (p s : string) :
  slice (p +:+ s) (String.length p) (String.length (p +:+ s)) = Ok s.
Proof.
  unfold slice. rewrite length_app.
  replace (String.length p <=? String.length p + String.length s)%nat with true
    by (symmetry; apply Nat.leb_le; lia).
  rewrite Nat.leb_refl. cbn.
  replace (String.length p + String.length s - String.length p)
    with (String.length s) by lia.
  by rewrite substring_app_r, substring_all.
Qed.

(** ** The parser, by positions and by shape *)
Section ParserProofs.
Context `{C : Collaborators}.

Lemma split_key_app (s : string) :
  s = (split_key s).1 +:+ (split_key s).2.
Proof.
  induction s as [|c s IH]; [done|].
  cbn. destruct (stop_byte c); [done|].
  destruct (split_key s) as [k rest]. cbn in *. rewrite app_cons. by rewrite <- IH.
Qed.

Lemma split_key_is_key (s : string) : is_key (split_key s).1 = true.
Proof.
  induction s as [|c s IH]; [done|].
  cbn. destruct (stop_byte c) eqn:Hc; [done|].
  destruct (split_key s) as [k rest]. cbn in *. by rewrite Hc, IH.
Qed.

Lemma split_key_rest (s : string) :
  match (split_key s).2 with
  | EmptyString => True
  | String c _ => stop_byte c = true
  end.
Proof.
  induction s as [|c s IH]; [done|].
  cbn. destruct (stop_byte c) eqn:Hc; [done|].
  by destruct (split_key s) as [k rest].
Qed.

Lemma index_at (p : string) (c : ascii) (s : string) :
  index (p +:+ String c s) (String.length p) = Ok c.
Proof.
  rewrite <- (Nat.add_0_r (String.length p)). by rewrite index_app_r.
Qed.

Lemma snoc_app (p : string) (c : ascii) (s : string) :
  p +:+ String c s = (p +:+ String c "") +:+ s.
Proof. by rewrite app_assoc_string. Qed.

Lemma length_snoc (p : string) (c : ascii) :
  String.length (p +:+ String c "") = S (String.length p).
Proof. rewrite length_app. cbn. lia. Qed.

(** The first loop runs over the key without stopping. *)
Lemma FIND_OPERATOR_key (p k rest : string) :
  is_key k = true ->
  FIND_OPERATOR (String.length (k +:+ rest)) (p +:+ k +:+ rest) (String.length p)
  = FIND_OPERATOR (String.length rest) (p +:+ k +:+ rest)
      (String.length p + String.length k).
Proof.
  revert p. induction k as [|c k IH]; intros p Hk.
  - cbn. by rewrite Nat.add_0_r.
  - cbn in Hk. apply andb_prop in Hk as [Hc Hk].
    rewrite !app_cons. cbn [String.length FIND_OPERATOR].
    rewrite index_at. cbn.
    unfold stop_byte in Hc.
    destruct (Ascii.eqb c "="), (Ascii.eqb c "!"), (Ascii.eqb c "^"),
      (Ascii.eqb c ";"); try discriminate Hc.
    rewrite (snoc_app p c (k +:+ rest)), <- (length_snoc p c).
    rewrite IH by done. rewrite length_snoc. f_equal. lia.
Qed.

Lemma scan_value_spec (p v : string) :
  scan_value (String.length v) (p +:+ v) (String.length p)
  = if has_semicolon v then Err (invalidExpressionError (p +:+ v)) else Ok tt.
Proof.
  revert p. induction v as [|c v IH]; intros p; [done|].
  cbn [String.length scan_value has_semicolon].
  rewrite index_at. cbn.
  change (ascii_of_nat 59) with ";"%char.
  destruct (Ascii.eqb c ";"); [done|]. cbn.
  rewrite (snoc_app p c v), <- (length_snoc p c). apply IH.
Qed.

Lemma FIND_OPERATOR_stop (k rest : string) :
  is_key k = true ->
  FIND_OPERATOR (String.length (k +:+ rest) - 0) (k +:+ rest) 0
  = match rest with
    | EmptyString => Ok (String.length k, false, false)
    | String c _ =>
        if Ascii.eqb c "=" then Ok (String.length k, false, false)
        else if Ascii.eqb c "!" then Ok (String.length k, false, true)
        else if Ascii.eqb c "^" then Ok (String.length k, true, false)
        else if Ascii.eqb c ";" then Err (invalidExpressionError (k +:+ rest))
        else FIND_OPERATOR (String.length rest - 1) (k +:+ rest) (S (String.length k))
    end.
Proof.
  intros Hk. rewrite Nat.sub_0_r.
  pose proof (FIND_OPERATOR_key "" k rest Hk) as H. cbn [String.length] in H.
  rewrite app_nil_l, Nat.add_0_l in H. rewrite H. clear H.
  destruct rest as [|c r]; [done|].
  cbn [String.length FIND_OPERATOR]. rewrite index_at. cbn. by rewrite Nat.sub_0_r.
Qed.




Lemma index_from (k s : string) (pos i : nat) :
  pos = String.length k + i -> index (k +:+ s) pos = index s i.
Proof. intros ->. apply index_app_r. Qed.

Lemma scan_value_from (k op v s : string) (n pos : nat) :
  s = op +:+ v ->
  pos = String.length k + String.length op ->
  n = String.length (k +:+ s) - pos ->
  scan_value n (k +:+ s) pos
  = if has_semicolon v then Err (invalidExpressionError (k +:+ s)) else Ok tt.
Proof.
  intros -> -> ->. rewrite <- app_assoc_string, <- length_app.
  replace (String.length ((k +:+ op) +:+ v) - String.length (k +:+ op))
    with (String.length v) by (rewrite (length_app (k +:+ op)); lia).
  apply scan_value_spec.
Qed.

Lemma slice_from (k op v s : string) (pos : nat) :
  s = op +:+ v ->
  pos = String.length k + String.length op ->
  slice (k +:+ s) pos (String.length (k +:+ s)) = Ok v.
Proof.
  intros -> ->. rewrite <- app_assoc_string, <- length_app. apply slice_suffix.
Qed.

Lemma tail_substring (c : ascii) (s : string) :
  String.substring 1 (S (String.length s) - 1) (String c s) = s.
Proof. cbn. rewrite Nat.sub_0_r. apply substring_all. Qed.

Ltac len := rewrite ?length_app; cbn [String.length]; lia.

Ltac nat_bool :=
  repeat match goal with
  | |- context [(?a <=? ?b)%nat] =>
      first [ rewrite (proj2 (Nat.leb_le a b)) by len
            | rewrite (proj2 (Nat.leb_gt a b)) by len ]
  | |- context [(?a <? ?b)%nat] =>
      first [ rewrite (proj2 (Nat.ltb_lt a b)) by len
            | rewrite (proj2 (Nat.ltb_ge a b)) by len ]
  end.

Ltac at_index :=
  match goal with
  | |- context [index (?k +:+ ?s) (String.length ?k)] =>
      rewrite (index_from k s (String.length k) 0) by lia
  | |- context [index (?k +:+ ?s) (S (String.length ?k))] =>
      rewrite (index_from k s (S (String.length k)) 1) by lia
  | |- context [index (?k +:+ ?s) (S (S (String.length ?k)))] =>
      rewrite (index_from k s (S (S (String.length k))) 2) by lia
  end.

Ltac at_value :=
  match goal with
  | |- context [scan_value _ (?k +:+ String ?a ?v) (S (String.length ?k))] =>
      rewrite (scan_value_from k (String a "") v) by (done || len);
      rewrite (slice_from k (String a "") v) by (done || len)
  | |- context [scan_value _ (?k +:+ String ?a (String ?b ?v)) (S (S (String.length ?k)))] =>
      rewrite (scan_value_from k (String a (String b "")) v) by (done || len);
      rewrite (slice_from k (String a (String b "")) v) by (done || len)
  | |- context [scan_value _ (?k +:+ String ?a (String ?b (String ?c ?v)))
                  (S (S (S (String.length ?k))))] =>
      rewrite (scan_value_from k (String a (String b (String c ""))) v) by (done || len);
      rewrite (slice_from k (String a (String b (String c ""))) v) by (done || len)
  end.

Local Arguments Nat.leb : simpl never.
Local Arguments Nat.ltb : simpl never.
Local Arguments Nat.eqb : simpl never.
Local Arguments Nat.sub : simpl never.
Local Arguments build_expression : simpl never.
Local Arguments derive_operator : simpl never.
Local Arguments String.eqb : simpl never.
Local Arguments String.substring : simpl never.

Ltac parse_step :=
  first [ progress nat_bool | at_index | at_value | rewrite tail_substring ]; cbn.

(** The part of a proof from the byte after [=] on. *)
Ltac after_eq r :=
  let c := fresh "c" in
  let v := fresh "v" in
  destruct r as [|c v];
  [ repeat parse_step; unfold finish; cbn; try done
  | repeat parse_step; unfold finish;
    destruct (Ascii.eqb c "~") eqn:?; cbn; try done;
    repeat parse_step; unfold finish; cbn;
    try (match goal with
         | |- context [if ?b then Err _ else Ok ()] => destruct b; [done|]
         end); cbn; try done ].

Lemma ParseExpression_shape (expr : string) :
  ParseExpression expr = parse_shape expr.
Proof.
  pose proof (split_key_app expr) as Happ.
  pose proof (split_key_is_key expr) as Hk.
  pose proof (split_key_rest expr) as Hrest.
  unfold parse_shape. destruct (split_key expr) as [k rest]. cbn in Happ, Hk, Hrest.
  subst expr. unfold ParseExpression.
  rewrite (FIND_OPERATOR_stop k rest Hk).
  destruct rest as [|c r].
  - cbn. destruct (String.length k =? 0)%nat eqn:Hk0; [done|].
    rewrite slice_prefix. cbn.
    destruct (validateQueryExpressionTagKey k); [done|].
    by nat_bool.
  - unfold stop_byte in Hrest. cbn [starts_with].
    destruct (Ascii.eqb_spec c "=") as [->|Heq].
    { cbn. destruct (String.length k =? 0)%nat eqn:Hk0; [done|].
      rewrite slice_prefix. cbn.
      destruct (validateQueryExpressionTagKey k); [done|].
      parse_step. parse_step. after_eq r. }
    destruct (Ascii.eqb_spec c "!") as [->|Hbang].
    { cbn. destruct (String.length k =? 0)%nat eqn:Hk0; [done|].
      rewrite slice_prefix. cbn.
      destruct (validateQueryExpressionTagKey k); [done|].
      rewrite tail_substring.
      destruct r as [|c1 r]; [by nat_bool|].
      parse_step. parse_step.
      destruct (Ascii.eqb c1 "=") eqn:Hc1; cbn; [|done].
      apply Ascii.eqb_eq in Hc1 as ->.
      after_eq r. }
    destruct (Ascii.eqb_spec c "^") as [->|Hcaret].
    { cbn. destruct (String.length k =? 0)%nat eqn:Hk0; [done|].
      rewrite slice_prefix. cbn.
      destruct (validateQueryExpressionTagKey k); [done|].
      rewrite tail_substring.
      destruct r as [|c1 r]; [by nat_bool|].
      parse_step. parse_step.
      destruct (Ascii.eqb c1 "=") eqn:Hc1; cbn; [|done].
      apply Ascii.eqb_eq in Hc1 as ->.
      after_eq r. }
    destruct (Ascii.eqb_spec c ";") as [->|Hsemi]; [done|].
    done.
Qed.
End ParserProofs.

(** ** The operator of a parsed expression *)
Section OperatorProofs.
Context `{C : Collaborators}.

Lemma split_key_stop (k rest : string) :
  is_key k = true ->
  match rest with
  | EmptyString => True
  | String c _ => stop_byte c = true
  end ->
  split_key (k +:+ rest) = (k, rest).
Proof.
  intros Hk Hrest. induction k as [|c k IH].
  - rewrite app_nil_l. destruct rest as [|c r]; [done|]. cbn. by rewrite Hrest.
  - cbn in Hk. apply andb_prop in Hk as [Hc Hk].
    rewrite app_cons. cbn. apply negb_true_iff in Hc. rewrite Hc.
    by rewrite IH.
Qed.

Local Arguments String.eqb : simpl never.
Local Arguments build_expression : simpl never.
Local Arguments derive_operator : simpl never.
Local Arguments Nat.eqb : simpl never.

(** The parser on a text given by its parts. *)
Lemma ParseExpression_text (k : string) (not prefix regex : bool) (v : string) :
  canonical k not prefix regex v ->
  ParseExpression (expression_text k not prefix regex v)
  = let expr := expression_text k not prefix regex v in
    if (String.length k =? 0)%nat then Err (invalidExpressionError expr)
    else match validateQueryExpressionTagKey k with
         | Some err => Err (keyValidationError k expr err)
         | None =>
             if regex && prefix then Err (invalidExpressionError expr)
             else finish expr k not prefix regex v
         end.
Proof.
  intros (Hk & Hflags & Hv). rewrite ParseExpression_shape.
  unfold parse_shape, expression_text.
  rewrite split_key_stop; [|done|by destruct not, prefix].
  cbn zeta.
  destruct (String.length k =? 0)%nat; [by destruct not, prefix|].
  destruct (validateQueryExpressionTagKey k); [by destruct not, prefix|].
  destruct not, prefix; try discriminate Hflags; destruct regex;
    rewrite ?app_cons, ?app_nil_l; cbn;
    rewrite ?Nat.sub_0_r, ?substring_all; try done.
  all: try (specialize (Hv eq_refl); rewrite Hv; done).
Qed.

(** A regex operator compiles the anchored value and stores it. *)
Lemma build_expression_regex (expr : string) (c : expressionCommon)
    (o : ExpressionOperator) :
  is_regex_operator o = true ->
  value c <> "" ->
  build_expression expr c o
  = match Compile (anchored (value c)) with
    | inr err => Err err
    | inl re =>
        let c' := set_value c (anchored (value c)) in
        match o with
        | MATCH => Ok (Match c' re)
        | NOT_MATCH => Ok (NotMatch {| common := c'; valueRe := re |})
        | _ => Ok (MatchTag c' (Some re))
        end
    end.
Proof.
  intros Ho Hv. unfold build_expression.
  destruct c as [k0 [|c0 v] m0]; cbn [value] in *; [done|].
  rewrite decide_True by (destruct o; try discriminate Ho; auto).
  cbn [String.length]. change (0 <? S (String.length v))%nat with true.
  cbn [index String.get mbind outcome_bind].
  unfold anchored. cbn [starts_with].
  destruct (Ascii.eqb c0 "^") eqn:Hc0; cbn [negb value set_value key matchesEmpty].
  - destruct (Compile _); [|done]. by destruct o.
  - destruct (Compile _); [|done]. by destruct o.
Qed.

(** The other operators of the parser store the value as it is. *)
Lemma build_expression_plain (expr : string) (c : expressionCommon)
    (o : ExpressionOperator) :
  is_regex_operator o = false ->
  build_expression expr c o
  = match o with
    | EQUAL => Ok (Equal c)
    | NOT_EQUAL => Ok (NotEqual c)
    | PREFIX => Ok (Prefix c)
    | HAS_TAG => Ok (HasTag c)
    | NOT_HAS_TAG => Ok (NotHasTag c)
    | PREFIX_TAG => Ok (PrefixTag c)
    | _ => Err (invalidOperatorError expr)
    end.
Proof.
  intros Ho. unfold build_expression.
  rewrite decide_False
    by (destruct o; try discriminate Ho; intros [?|[?|?]]; discriminate).
  by destruct o.
Qed.

Lemma derive_operator_spec (not prefix regex : bool) (v : string) :
  derive_operator not prefix regex v
  = spec_operator not prefix regex (String.eqb v "").
Proof.
  unfold derive_operator. destruct v; cbn; by destruct not, prefix, regex.
Qed.


Lemma remap_tag_spec (o : ExpressionOperator) :
  remap_tag o = spec_tag_remap "__tag" o.
Proof. by destruct o. Qed.

(** What [finish] builds carries the operator of the table. *)
Lemma finish_operator (expr k : string) (not prefix regex : bool) (v : string)
    (e : Expression) :
  finish expr k not prefix regex v = Ok e ->
  GetKey e = k /\
  GetOperator e
  = spec_tag_remap k (spec_operator not prefix regex (String.eqb v "")).
Proof.
  unfold finish. destruct (has_semicolon v); [done|].
  rewrite derive_operator_spec. unfold spec_tag_remap.
  set (o := spec_operator not prefix regex (String.eqb v "")).
  assert (Hbuild : forall o' c, key c = k ->
            build_expression expr c o' = Ok e ->
            GetKey e = k /\ GetOperator e = o').
  { intros o' c Hc. destruct (is_regex_operator o') eqn:Ho'.
    - destruct (String.eqb (value c) "") eqn:Hv.
      + apply String.eqb_eq in Hv. unfold build_expression.
        rewrite decide_True by (destruct o'; try discriminate Ho'; auto).
        rewrite Hv. cbn. rewrite Hv.
        destruct (Compile ""); [|done].
        destruct o'; try discriminate Ho'; intros [= <-]; by cbn.
      + apply String.eqb_neq in Hv.
        rewrite build_expression_regex by done.
        destruct (Compile _); [|done].
        destruct o'; try discriminate Ho'; intros [= <-]; by cbn.
    - rewrite build_expression_plain by done.
      destruct o'; try discriminate Ho'; intros [= <-]; by cbn. }
  destruct (String.eqb k "__tag") eqn:Hk.
  - destruct (not || _); [done|]. intros He.
    apply Hbuild in He as [? ->]; [|done]. split; [done|].
    rewrite remap_tag_spec. by unfold spec_tag_remap.
  - intros He. by apply Hbuild in He.
Qed.

Lemma starts_with_true (c : ascii) (s : string) :
  starts_with c s = true ->
  s = String c (String.substring 1 (String.length s - 1) s).
Proof.
  destruct s as [|c' s]; [done|]. cbn. intros ->%Ascii.eqb_eq.
  by rewrite Nat.sub_0_r, substring_all.
Qed.

(** After the key and the flag byte an accepted text holds [=], an optional
    [~] and the value. *)
Lemma parse_operator_Ok (expr k : string) (not prefix : bool) (r : string)
    (e : Expression) :
  parse_operator expr k not prefix r = Ok e ->
  exists (regex : bool) (v : string),
    r = "=" +:+ (if regex then "~" else "") +:+ v /\
    (regex = false -> starts_with "~" v = false).
Proof.
  unfold parse_operator. destruct r as [|c r]; [done|].
  destruct (Ascii.eqb_spec c "=") as [->|]; [|done].
  destruct (starts_with "~" r) eqn:Hr.
  - intros _. exists true, (String.substring 1 (String.length r - 1) r).
    split; [|done]. rewrite !app_cons, !app_nil_l. f_equal.
    by apply starts_with_true.
  - intros _. by exists false, r.
Qed.

Lemma ParseExpression_decompose (expr : string) (e : Expression) :
  ParseExpression expr = Ok e ->
  exists (k : string) (not prefix regex : bool) (v : string),
    canonical k not prefix regex v /\ expr = expression_text k not prefix regex v.
Proof.
  rewrite ParseExpression_shape. unfold parse_shape.
  pose proof (split_key_app expr) as Happ.
  pose proof (split_key_is_key expr) as Hk.
  destruct (split_key expr) as [k rest]. cbn in Happ, Hk.
  destruct (starts_with ";" rest); [done|].
  destruct (String.length k =? 0)%nat; [done|].
  destruct (validateQueryExpressionTagKey k); [done|].
  unfold canonical, expression_text.
  destruct (starts_with "!" rest) eqn:Hbang.
  { intros (regex & v & Hr & Hv)%parse_operator_Ok.
    exists k, true, false, regex, v. split; [done|].
    rewrite Happ at 1. f_equal. rewrite (starts_with_true _ _ Hbang), Hr.
    by rewrite !app_cons, !app_nil_l. }
  destruct (starts_with "^" rest) eqn:Hcaret.
  { intros (regex & v & Hr & Hv)%parse_operator_Ok.
    exists k, false, true, regex, v. split; [done|].
    rewrite Happ at 1. f_equal. rewrite (starts_with_true _ _ Hcaret), Hr.
    by rewrite !app_cons, !app_nil_l. }
  intros (regex & v & Hr & Hv)%parse_operator_Ok.
  exists k, false, false, regex, v. split; [done|].
  rewrite Happ at 1. f_equal. rewrite Hr. by rewrite !app_nil_l.
Qed.

(** C4: the operator of an accepted text is the one the table of the
    specification gives for its flags [not], [prefix], [regex] and the
    emptiness of its value, remapped under the key [__tag]; every accepted
    text has such parts. *)
Theorem ParseExpression_operator_table (expr : string) (e : Expression) :
  ParseExpression expr = Ok e ->
  (exists (k : string) (not prefix regex : bool) (v : string),
     canonical k not prefix regex v /\ expr = expression_text k not prefix regex v)
  /\
  (forall k not prefix regex v,
     canonical k not prefix regex v ->
     expr = expression_text k not prefix regex v ->
     GetKey e = k /\
     GetOperator e
     = spec_tag_remap k (spec_operator not prefix regex (String.eqb v ""))).
Proof.
  intros He. split; [by eapply ParseExpression_decompose|].
  intros k not prefix regex v Hcan ->.
  rewrite ParseExpression_text in He by done. cbn zeta in He.
  destruct (String.length k =? 0)%nat; [done|].
  destruct (validateQueryExpressionTagKey k); [done|].
  destruct (regex && prefix); [done|].
  by apply finish_operator in He.
Qed.
End OperatorProofs.

(** ** Regex operators: the anchoring rewrite *)
Section RegexProofs.
Context `{C : Collaborators}.

Local Arguments String.eqb : simpl never.
Local Arguments build_expression : simpl never.
Local Arguments derive_operator : simpl never.
Local Arguments Nat.eqb : simpl never.


Lemma length_eqb_0 (s : string) : (String.length s =? 0)%nat = String.eqb s "".
Proof. by destruct s. Qed.

(** A text with the regex flag and a value that is not empty. *)
Lemma ParseExpression_regex_text (k : string) (not : bool) (v : string) :
  is_key k = true -> k <> "" -> validateQueryExpressionTagKey k = None ->
  v <> "" -> has_semicolon v = false ->
  ParseExpression (expression_text k not false true v)
  = if String.eqb k "__tag" then
      if not then Err (invalidExpressionError (expression_text k not false true v))
      else compiled mkMatchTag k (anchored v)
    else compiled (if not then mkNotMatch else Match) k (anchored v).
Proof.
  intros Hk Hk0 Hval Hv Hsemi.
  rewrite ParseExpression_text
    by (repeat split; [done|apply andb_false_r|done]).
  cbn zeta.
  rewrite length_eqb_0. apply String.eqb_neq in Hk0 as ->. rewrite Hval.
  cbn [andb]. unfold finish. rewrite Hsemi, length_eqb_0.
  pose proof Hv as Hv'. apply String.eqb_neq in Hv' as ->.
  rewrite derive_operator_spec. apply String.eqb_neq in Hv as Hv'. rewrite Hv'.
  unfold compiled.
  destruct (String.eqb k "__tag"), not; cbn [orb spec_operator remap_tag]; try done.
  all: rewrite build_expression_regex by done; cbn [value set_value key matchesEmpty].
  all: try rewrite decide_False by done; try rewrite decide_True by done.
  all: by destruct (Compile _).
Qed.

(** C3: for a key [k] and a value [v] that is not empty, the texts [k!=~v]
    and [k=~v] compile the pattern [^(?:v)] when [v] does not begin with
    [^], and [v] itself when it does; hence the filters parsed from
    [k!=~foo] and from [k!=~^(?:foo)] decide alike on every name, tag list
    and cache. *)
Theorem ParseExpression_anchoring (k v : string) :
  is_key k = true -> k <> "" -> validateQueryExpressionTagKey k = None ->
  v <> "" -> has_semicolon v = false ->
  (starts_with "^" v = false ->
     (k <> "__tag" ->
      ParseExpression (k +:+ "!=~" +:+ v)
      = compiled mkNotMatch k (("^(?:" +:+ v) +:+ ")")) /\
     ParseExpression (k +:+ "=~" +:+ v)
     = compiled (if String.eqb k "__tag" then mkMatchTag else Match) k
         (("^(?:" +:+ v) +:+ ")")) /\
  (starts_with "^" v = true ->
     (k <> "__tag" ->
      ParseExpression (k +:+ "!=~" +:+ v) = compiled mkNotMatch k v) /\
     ParseExpression (k +:+ "=~" +:+ v)
     = compiled (if String.eqb k "__tag" then mkMatchTag else Match) k v) /\
  (forall e1 e2 : expressionNotMatch,
     ParseExpression (k +:+ "!=~foo") = Ok (NotMatch e1) ->
     ParseExpression (k +:+ "!=~^(?:foo)") = Ok (NotMatch e2) ->
     forall (name : string) (tags : list string) (st : Cache),
       expressionNotMatch_GetMetricDefinitionFilter e1 name tags st
       = expressionNotMatch_GetMetricDefinitionFilter e2 name tags st).
Proof.
  intros Hk Hk0 Hval Hv Hsemi.
  pose proof (ParseExpression_regex_text k true v Hk Hk0 Hval Hv Hsemi) as Hnot.
  pose proof (ParseExpression_regex_text k false v Hk Hk0 Hval Hv Hsemi) as Hpos.
  change (expression_text k true false true v) with (k +:+ "!=~" +:+ v) in Hnot.
  change (expression_text k false false true v) with (k +:+ "=~" +:+ v) in Hpos.
  split; [|split].
  - intros Hcaret. unfold anchored in Hnot, Hpos. rewrite Hcaret in Hnot, Hpos.
    split.
    + intros Htag%String.eqb_neq. by rewrite Htag in Hnot.
    + rewrite Hpos. by destruct (String.eqb k "__tag").
  - intros Hcaret. unfold anchored in Hnot, Hpos. rewrite Hcaret in Hnot, Hpos.
    split.
    + intros Htag%String.eqb_neq. by rewrite Htag in Hnot.
    + rewrite Hpos. by destruct (String.eqb k "__tag").
  - intros e1 e2 H1 H2.
    change (k +:+ "!=~foo") with (expression_text k true false true "foo") in H1.
    change (k +:+ "!=~^(?:foo)")
      with (expression_text k true false true "^(?:foo)") in H2.
    rewrite ParseExpression_regex_text in H1, H2 by done.
    destruct (String.eqb k "__tag"); [done|].
    change (anchored "foo") with "^(?:foo)" in H1.
    change (anchored "^(?:foo)") with "^(?:foo)" in H2.
    rewrite H1 in H2. by injection H2 as ->.
Qed.

(** C2, amended: a parsed regex expression whose textual value [v] does not
    begin with [^] stores the rewritten value [^(?:v)]: [GetValue] returns
    it and [StringIntoBuilder] appends key, operator token and the rewritten
    value. *)
Theorem regex_value_is_rewritten (k : string) (not : bool) (v : string)
    (e : Expression) :
  is_key k = true ->
  starts_with "^" v = false ->
  ParseExpression (expression_text k not false true v) = Ok e ->
  is_regex_operator (GetOperator e) = true ->
  GetValue e = ("^(?:" +:+ v) +:+ ")" /\
  forall builder : string,
    StringIntoBuilder e builder
    = ((builder +:+ k) +:+ operator_token (GetOperator e))
        +:+ (("^(?:" +:+ v) +:+ ")").
Proof.
  intros Hk Hcaret He Hop.
  pose proof He as He'.
  rewrite ParseExpression_text in He'
    by (repeat split; [done|apply andb_false_r|done]).
  cbn zeta in He'. rewrite length_eqb_0 in He'.
  destruct (String.eqb_spec k "") as [|Hk0]; [done|].
  destruct (validateQueryExpressionTagKey k) eqn:Hval; [done|].
  cbn [andb] in He'.
  pose proof (finish_operator _ _ _ _ _ _ _ He') as [_ Ho].
  unfold finish in He'. destruct (has_semicolon v) eqn:Hsemi; [done|]. clear He'.
  rewrite Ho in Hop. unfold spec_tag_remap in Hop.
  destruct (String.eqb_spec v "") as [->|Hv].
  { by destruct (String.eqb k "__tag"), not. }
  rewrite ParseExpression_regex_text in He by done.
  unfold anchored, compiled in He. rewrite Hcaret in He.
  destruct (String.eqb k "__tag"), not; try done;
    destruct (Compile _); try done; injection He as <-; by cbn.
Qed.
End RegexProofs.

(** C2 as stated fails: the expression parsed from [k!=~foo] does not carry
    the value [foo]. *)
Lemma regex_value_original_counterexample :
  exists e : Expression,
    ParseExpression (C := Reference.collaborators) "k!=~foo" = Ok e /\
    GetOperator e = NOT_MATCH /\
    GetValue e = "^(?:foo)" /\ GetValue e <> "foo" /\
    StringIntoBuilder e "" = "k!=~^(?:foo)".
Proof.
  eexists. split; [vm_compute; reflexivity|].
  repeat split; try reflexivity. discriminate.
Qed.

(** ** Errors of the parser *)
Section ErrorProofs.
Context `{C : Collaborators}.

Local Arguments String.eqb : simpl never.
Local Arguments build_expression : simpl never.
Local Arguments derive_operator : simpl never.
Local Arguments Nat.eqb : simpl never.
Local Arguments finish : simpl never.

Lemma stop_byte_terminator (c : ascii) :
  stop_byte c = terminator c || Ascii.eqb c ";".
Proof. reflexivity. Qed.

Lemma terminator_not_semicolon (c : ascii) :
  terminator c = true -> Ascii.eqb c ";" = false.
Proof.
  unfold terminator.
  destruct (Ascii.eqb_spec c "=") as [->|]; [done|].
  destruct (Ascii.eqb_spec c "!") as [->|]; [done|].
  destruct (Ascii.eqb_spec c "^") as [->|]; done.
Qed.

(** The key and the rest of the specification against [split_key]. *)
Lemma text_parts (s : string) :
  if starts_with ";" (split_key s).2
  then has_semicolon (text_key s) = true
  else text_key s = (split_key s).1 /\ text_rest s = (split_key s).2.
Proof.
  induction s as [|c s IH]; [done|].
  cbn [split_key text_key text_rest]. rewrite stop_byte_terminator.
  destruct (terminator c) eqn:Hc.
  - cbn. by rewrite terminator_not_semicolon.
  - cbn [orb]. destruct (Ascii.eqb c ";") eqn:Hsemi.
    + cbn. by rewrite Hsemi.
    + destruct (split_key s) as [k rest]. cbn [fst snd] in *.
      destruct (starts_with ";" rest).
      * cbn. by rewrite IH, orb_true_r.
      * destruct IH as [-> ->]. done.
Qed.

Lemma substring_tail (s : string) :
  String.substring 1 (String.length s - 1) s = tail s.
Proof.
  destruct s as [|c s]; [done|]. cbn. by rewrite Nat.sub_0_r, substring_all.
Qed.

Lemma parse_operator_parts (expr k : string) (not prefix : bool) (r : string) :
  parse_operator expr k not prefix r
  = if negb (starts_with "=" r) || (prefix && starts_with "~" (tail r))
    then Err (invalidExpressionError expr)
    else finish expr k not prefix (starts_with "~" (tail r))
           (if starts_with "~" (tail r) then tail (tail r) else tail r).
Proof.
  unfold parse_operator. destruct r as [|c r]; [done|]. cbn [starts_with tail].
  destruct (Ascii.eqb c "="); [|done]. cbn [negb orb].
  rewrite substring_tail.
  destruct (starts_with "~" r), prefix; done.
Qed.

(** [ParseExpression] in the words of the specification. *)
Lemma ParseExpression_parts (expr : string) :
  ParseExpression expr
  = if key_malformed expr then Err (invalidExpressionError expr)
    else match validateQueryExpressionTagKey (text_key expr) with
         | Some verr => Err (keyValidationError (text_key expr) expr verr)
         | None =>
             if operator_malformed expr then Err (invalidExpressionError expr)
             else finish expr (text_key expr) (text_not expr) (text_prefix expr)
                    (text_regex expr) (text_value expr)
         end.
Proof.
  rewrite ParseExpression_shape. unfold parse_shape.
  pose proof (text_parts expr) as Hparts.
  pose proof (split_key_rest expr) as Hrest.
  pose proof (split_key_is_key expr) as Hk.
  unfold key_malformed, operator_malformed, text_value, text_regex, text_has_eq,
    after_flag, text_not, text_prefix.
  destruct (split_key expr) as [k rest]. cbn [fst snd] in *.
  destruct (starts_with ";" rest) eqn:Hsemi.
  { by rewrite Hparts. }
  destruct Hparts as [-> ->].
  assert (has_semicolon k = false) as ->.
  { clear -Hk. induction k as [|c k IH]; [done|]. cbn in *.
    apply andb_prop in Hk as [Hc Hk]. rewrite IH by done.
    unfold stop_byte in Hc. by destruct (Ascii.eqb c ";"); [rewrite !orb_true_r in Hc|]. }
  cbn [orb]. rewrite length_eqb_0.
  destruct (String.eqb k ""); [done|].
  destruct (validateQueryExpressionTagKey k); [done|].
  rewrite !parse_operator_parts, substring_tail.
  destruct rest as [|c r]; [done|]. cbn [starts_with tail].
  destruct (Ascii.eqb_spec c "!") as [->|]; [done|].
  destruct (Ascii.eqb_spec c "^") as [->|]; [done|].
  reflexivity.
Qed.

(** What [finish] returns, case by case. *)
Lemma finish_cases (expr k : string) (not prefix regex : bool) (v : string) :
  regex && prefix = false ->
  finish expr k not prefix regex v
  = if has_semicolon v
       || String.eqb k "__tag" && (not || String.eqb v "")
    then Err (invalidExpressionError expr)
    else if regex && negb (String.eqb v "") then
      compiled (if not then mkNotMatch
                else if String.eqb k "__tag" then mkMatchTag else Match)
        k (anchored v)
    else
      build_expression expr {| key := k; value := v; matchesEmpty := false |}
        (spec_tag_remap k (spec_operator not prefix regex (String.eqb v ""))).
Proof.
  intros Hflags. unfold finish. destruct (has_semicolon v); [done|]. cbn [orb].
  rewrite length_eqb_0, derive_operator_spec.
  destruct (String.eqb_spec v "") as [->|Hv].
  - rewrite andb_false_r.
    destruct (String.eqb k "__tag") eqn:Hk; [by rewrite orb_true_r|].
    unfold spec_tag_remap. by rewrite Hk.
  - rewrite orb_false_r, andb_true_r.
    destruct regex.
    + destruct prefix; [done|]. unfold spec_tag_remap, compiled.
      destruct (String.eqb k "__tag") eqn:Hk, not; cbn; try done.
      all: rewrite build_expression_regex by done; cbn [value set_value key matchesEmpty].
      all: by destruct (Compile _).
    + destruct (String.eqb k "__tag") eqn:Hk.
      * destruct not; [done|]. cbn [andb orb]. rewrite remap_tag_spec.
        unfold spec_tag_remap. by rewrite Hk.
      * unfold spec_tag_remap. by rewrite Hk.
Qed.

Lemma finish_plain_Ok (expr k : string) (not prefix regex : bool) (v : string) :
  regex && negb (String.eqb v "") = false ->
  exists e,
    build_expression expr {| key := k; value := v; matchesEmpty := false |}
      (spec_tag_remap k (spec_operator not prefix regex (String.eqb v ""))) = Ok e.
Proof.
  intros Hre. rewrite build_expression_plain.
  - unfold spec_tag_remap.
    destruct (String.eqb k "__tag"), not, prefix, regex, (String.eqb v "");
      try discriminate Hre; cbn; eauto.
  - unfold spec_tag_remap.
    destruct (String.eqb k "__tag"), not, prefix, regex, (String.eqb v "");
      try discriminate Hre; done.
Qed.


(** C5: [ParseExpression] never panics; it returns an error exactly when the
    text is malformed (a [;] in the key or the value, an empty key, a key
    that validation rejects, no [=] after the key and its flag byte, [^]
    with [=~], the key [__tag] with [!] or an empty value, or a regex value
    that does not compile); an error is the message
    [Invalid expression: <text>], the wrapped key validation error or the
    compiler's error, and a structural failure carries the first of them. *)
Theorem ParseExpression_errors (expr : string) :
  ParseExpression expr <> Panic /\
  ((exists err, ParseExpression expr = Err err) <-> malformed expr) /\
  (forall err, ParseExpression expr = Err err ->
     err = invalidExpressionError expr \/
     (exists verr,
        validateQueryExpressionTagKey (text_key expr) = Some verr /\
        err = keyValidationError (text_key expr) expr verr) \/
     Compile (anchored (text_value expr)) = inr err) /\
  (structurally_malformed expr = true ->
   key_malformed expr = true \/
   validateQueryExpressionTagKey (text_key expr) = None ->
   ParseExpression expr = Err (invalidExpressionError expr)).
Proof.
  rewrite ParseExpression_parts.
  unfold malformed, structurally_malformed, key_rejected, regex_rejected,
    value_malformed, tag_malformed.
  destruct (key_malformed expr) eqn:Hkey.
  { split_and!; [done|split; [by left|eauto]|intros ? [= <-]; by left|done]. }
  destruct (validateQueryExpressionTagKey (text_key expr)) as [verr|] eqn:Hval.
  { split_and!; [done|split; [by right; left|eauto]
                 |intros ? [= <-]; right; left; eauto|by intros _ [|]]. }
  destruct (operator_malformed expr) eqn:Hop.
  { split_and!; [done|split; [by left|eauto]|intros ? [= <-]; by left|done]. }
  assert (Hflags : text_regex expr && text_prefix expr = false).
  { unfold operator_malformed in Hop. apply orb_false_elim in Hop as [_ Hop].
    by rewrite andb_comm. }
  rewrite finish_cases by done. cbn [orb].
  set (k := text_key expr) in *. set (v := text_value expr) in *.
  destruct (has_semicolon v) eqn:Hsemi.
  { split_and!; [done|split; [by left|eauto]|intros ? [= <-]; by left|done]. }
  destruct (String.eqb k "__tag" && (text_not expr || String.eqb v "")) eqn:Htag.
  { split_and!; [done|split; [by left|eauto]|intros ? [= <-]; by left|done]. }
  cbn [orb].
  destruct (text_regex expr && negb (String.eqb v "")) eqn:Hre.
  - apply andb_prop in Hre as [Hregex Hv%negb_true_iff%String.eqb_neq].
    unfold compiled. destruct (Compile (anchored v)) as [re|err] eqn:Hcomp.
    + split_and!; [done| |done|done].
      split; [by intros [? ?]|]. intros [|[|(_ & _ & err & ?)]]; congruence.
    + split_and!; [done| |by intros ? [= <-]; right; right|done].
      split; [|eauto]. intros _. right; right. eauto.
  - destruct (finish_plain_Ok expr k (text_not expr) (text_prefix expr)
                (text_regex expr) v Hre) as [e ->].
    split_and!; [done| |done|done].
    split; [by intros [? ?]|]. intros [|[|(Hregex & Hv%String.eqb_neq & _)]];
      [done|done|]. by rewrite Hregex, Hv in Hre.
Qed.
End ErrorProofs.

(** ** The metric definition filter of [NOT_MATCH] *)
Section FilterProofs.
Context `{C : Collaborators}.

Local Arguments String.eqb : simpl never.

Lemma prefix_app (p s : string) : String.prefix p (p +:+ s) = true.
Proof.
  induction p as [|c p IH]; [by destruct s|].
  rewrite app_cons. cbn. destruct (ascii_dec c c); [done|congruence].
Qed.

Lemma prefix_split (p s : string) :
  String.prefix p s = true ->
  s = p +:+ String.substring (String.length p) (String.length s - String.length p) s.
Proof.
  revert s. induction p as [|c p IH]; intros s Hp.
  - cbn. by rewrite Nat.sub_0_r, substring_all.
  - destruct s as [|c' s]; [done|]. cbn in Hp.
    destruct (ascii_dec c c') as [->|]; [|done].
    rewrite app_cons. cbn. f_equal. by apply IH.
Qed.

Lemma prefix_exists (p s : string) :
  String.prefix p s = true -> exists v, s = p +:+ v.
Proof. intros Hp. eexists. by apply prefix_split. Qed.

Lemma store_match_ok (e : expressionNotMatch) (v : string) (st : Cache) :
  cache_ok e st -> MatchString (valueRe e) v = true ->
  cache_ok e (store_match v st).
Proof.
  intros [Hm Hs] Hv. unfold store_match.
  destruct (_ <? _)%Z; [|done]. split; cbn; [|done].
  intros v' [->%elem_of_singleton|?]%elem_of_union; auto.
Qed.

Lemma store_miss_ok (e : expressionNotMatch) (v : string) (st : Cache) :
  cache_ok e st -> MatchString (valueRe e) v = false ->
  cache_ok e (store_miss v st).
Proof.
  intros [Hm Hs] Hv. unfold store_miss.
  destruct (_ <? _)%Z; [|done]. split; cbn; [done|].
  intros v' [->%elem_of_singleton|?]%elem_of_union; auto.
Qed.

(** Tags without the key are skipped. *)
Lemma scan_tags_skip (e : expressionNotMatch) (pre tags : list string) (st : Cache) :
  Forall (fun t => has_key e t = false) pre ->
  scan_tags e (key (common e) +:+ "=") (pre ++ tags) st
  = scan_tags e (key (common e) +:+ "=") tags st.
Proof.
  induction 1 as [|t pre Ht _ IH]; [done|].
  cbn. unfold has_key in Ht. by rewrite Ht.
Qed.

(** The first tag with the key decides, whatever follows it. *)
Lemma scan_tags_hit (e : expressionNotMatch) (v : string) (post : list string)
    (st : Cache) :
  cache_ok e st ->
  exists st',
    scan_tags e (key (common e) +:+ "=") (((key (common e) +:+ "=") +:+ v) :: post) st
    = Ok (value_decision e v, st') /\ cache_ok e st'.
Proof.
  intros Hok. cbn [scan_tags]. unfold HasPrefix, value_decision.
  rewrite prefix_app. cbn [negb].
  destruct (String.eqb (value (common e)) ""); [by exists st|].
  rewrite slice_suffix. cbn [mbind outcome_bind].
  destruct Hok as [Hm Hs].
  case_bool_decide as Hmiss.
  { rewrite (Hs _ Hmiss). by exists st. }
  case_bool_decide as Hmatch.
  { rewrite (Hm _ Hmatch). by exists st. }
  destruct (MatchString (valueRe e) v) eqn:Hv.
  - eexists. split; [done|]. by apply store_match_ok.
  - eexists. split; [done|]. by apply store_miss_ok.
Qed.

Lemma filter_cache_ok (e : expressionNotMatch) (name : string)
    (tags : list string) (st st' : Cache) (d : FilterDecision) :
  cache_ok e st ->
  expressionNotMatch_GetMetricDefinitionFilter e name tags st = Ok (d, st') ->
  cache_ok e st'.
Proof.
  intros Hok. unfold expressionNotMatch_GetMetricDefinitionFilter.
  destruct (String.eqb (key (common e)) "name").
  { destruct (String.eqb (value (common e)) ""); [by intros [= _ <-]|].
    destruct (MatchString _ _); by intros [= _ <-]. }
  induction tags as [|t tags IH]; [by intros [= _ <-]|].
  destruct (HasPrefix t (key (common e) +:+ "=")) eqn:Ht.
  - destruct (prefix_exists _ _ Ht) as [v ->].
    destruct (scan_tags_hit e v tags st Hok) as (st0 & Hhit & Hok0).
    rewrite Hhit. by intros [= _ <-].
  - cbn [scan_tags]. by rewrite Ht.
Qed.

Lemma reachable_cache_ok (e : expressionNotMatch) (st : Cache) :
  reachable e st -> cache_ok e st.
Proof.
  induction 1 as [|st st' name tags d _ IH Hcall].
  - split; intros v Hv; cbn in Hv; set_solver.
  - by eapply filter_cache_ok.
Qed.

(** Either no tag carries the key, or the first one that does decides. *)
Lemma scan_tags_decision (e : expressionNotMatch) (tags : list string) :
  (Forall (fun t => has_key e t = false) tags /\
   forall st, scan_tags e (key (common e) +:+ "=") tags st = Ok (DecNone, st))
  \/
  (exists (pre : list string) (v : string) (post : list string),
     tags = pre ++ ((key (common e) +:+ "=") +:+ v) :: post /\
     Forall (fun t => has_key e t = false) pre /\
     forall st, cache_ok e st ->
       exists st',
         scan_tags e (key (common e) +:+ "=") tags st
         = Ok (value_decision e v, st') /\ cache_ok e st').
Proof.
  induction tags as [|t tags IH].
  - left. by split.
  - destruct (has_key e t) eqn:Ht.
    + right. destruct (prefix_exists _ _ Ht) as [v ->].
      exists [], v, tags. split; [done|]. split; [done|].
      intros st Hok. by apply scan_tags_hit.
    + destruct IH as [[Hnone Hscan]|(pre & v & post & -> & Hpre & Hscan)].
      * left. split; [by constructor|]. intros st. cbn [scan_tags].
        unfold has_key in Ht. rewrite Ht. apply Hscan.
      * right. exists (t :: pre), v, post. split; [done|].
        split; [by constructor|]. intros st Hok. cbn [scan_tags app].
        unfold has_key in Ht. rewrite Ht. cbn [negb]. by apply Hscan.
Qed.

(** C6, amended: from every state of the cache that calls lead to, the
    closure returns, and its decision is the same function of name and tags:
    under the key [name] it is [Pass] when the value of the expression is
    empty, else [Fail] when the pattern matches the name and [Pass] when it
    does not (never [None]); under another key it is decided by the first
    tag [<key>=v] in list order, [Pass] when the value of the expression is
    empty, else [Fail] when the pattern matches [v] and [Pass] when it does
    not, and it is [None] when no tag begins with [<key>=]. *)
Theorem NotMatch_filter_decision (e : expressionNotMatch) (st : Cache)
    (name : string) (tags : list string) :
  reachable e st ->
  exists (d : FilterDecision) (st' : Cache),
    expressionNotMatch_GetMetricDefinitionFilter e name tags st = Ok (d, st') /\
    reachable e st' /\
    (forall st2 : Cache, reachable e st2 ->
       exists st2' : Cache,
         expressionNotMatch_GetMetricDefinitionFilter e name tags st2 = Ok (d, st2')) /\
    (key (common e) = "name" ->
       d <> DecNone /\
       d = if String.eqb (value (common e)) "" then Pass
           else if MatchString (valueRe e) name then Fail else Pass) /\
    (key (common e) <> "name" ->
       (forall (pre post : list string) (v : string),
          tags = pre ++ (key (common e) +:+ "=" +:+ v) :: post ->
          Forall (fun t => has_key e t = false) pre ->
          d = if String.eqb (value (common e)) "" then Pass
              else if MatchString (valueRe e) v then Fail else Pass) /\
       (Forall (fun t => has_key e t = false) tags -> d = DecNone)).
Proof.
  intros Hreach.
  assert (Hcall : forall d st', 
    expressionNotMatch_GetMetricDefinitionFilter e name tags st = Ok (d, st') ->
    reachable e st') by (intros; by eapply reachable_call).
  pose proof (reachable_cache_ok e st Hreach) as Hok.
  unfold expressionNotMatch_GetMetricDefinitionFilter in *.
  destruct (String.eqb_spec (key (common e)) "name") as [Hname|Hname].
  - destruct (String.eqb (value (common e)) "").
    + exists Pass, st. split_and!; eauto; done.
    + destruct (MatchString (valueRe e) name); eexists _, st;
        split_and!; eauto; done.
  - destruct (scan_tags_decision e tags)
      as [[Hnone Hscan]|(pre & v & post & -> & Hpre & Hscan)].
    + exists DecNone, st. rewrite Hscan. split_and!; eauto; try done.
      intros _. split; [|done]. intros pre post v -> _.
      apply Forall_app in Hnone as [_ Hnone].
      apply Forall_cons in Hnone as [Hv _]. unfold has_key, HasPrefix in Hv.
      by rewrite <- app_assoc_string, prefix_app in Hv.
    + destruct (Hscan st Hok) as (st' & Hst' & _).
      exists (value_decision e v), st'. split; [done|]. split; [eauto|].
      split.
      { intros st2 Hok2%reachable_cache_ok.
        destruct (Hscan st2 Hok2) as (st2' & ? & _). eauto. }
      split; [done|]. intros _. split.
      * intros pre' post' v' Htags Hpre'.
        rewrite Htags, scan_tags_skip in Hst' by done.
        rewrite <- app_assoc_string in Hst'.
        destruct (scan_tags_hit e v' post' st Hok) as (st'' & Hhit & _).
        rewrite Hhit in Hst'. by injection Hst' as <- _.
      * intros Hnone. apply Forall_app in Hnone as [_ Hnone].
        apply Forall_cons in Hnone as [Hv _]. unfold has_key, HasPrefix in Hv.
        by rewrite prefix_app in Hv.
Qed.

(** C10: under a key other than [name], the first tag that begins with
    [<key>=] decides: the closure returns on the whole list what it returns
    on that tag alone, decision and cache, whatever tags follow it, and the
    decision is [Fail] or [Pass]. *)
Theorem NotMatch_filter_first_tag (e : expressionNotMatch) (name : string)
    (pre : list string) (t : string) (post : list string) (st : Cache) :
  key (common e) <> "name" ->
  Forall (fun t' => has_key e t' = false) pre ->
  has_key e t = true ->
  expressionNotMatch_GetMetricDefinitionFilter e name (pre ++ t :: post) st
  = expressionNotMatch_GetMetricDefinitionFilter e name [t] st /\
  exists (d : FilterDecision) (st' : Cache),
    expressionNotMatch_GetMetricDefinitionFilter e name [t] st = Ok (d, st') /\
    (d = Fail \/ d = Pass).
Proof.
  intros Hname%String.eqb_neq Hpre Ht.
  unfold expressionNotMatch_GetMetricDefinitionFilter. rewrite Hname.
  rewrite scan_tags_skip by done. cbn [scan_tags].
  unfold has_key in Ht. rewrite Ht. cbn [negb]. split; [done|].
  destruct (String.eqb (value (common e)) ""); [eauto|].
  destruct (prefix_exists _ _ Ht) as [v ->]. rewrite slice_suffix.
  cbn [mbind outcome_bind].
  repeat case_bool_decide; eauto.
  destruct (MatchString _ _); eauto.
Qed.
End FilterProofs.

(** ** The combinator of filters *)
Section CombinatorProofs.
Context `{C : Collaborators}.

(** C8: [Filter] returns the decision of the first filter in list order that
    returns [Fail] or [Pass], with the state that filter leaves (no later
    filter runs), and [None] when every filter of the list returns [None];
    it returns nothing else. *)
Theorem Filter_first_conclusive {S : Type} (m : list (MetricDefinitionFilter S))
    (name : string) (tags : list string) (st : S) :
  (forall pre f post st1 d st2,
     m = pre ++ f :: post ->
     all_none name tags pre st st1 ->
     f name tags st1 = Ok (d, st2) ->
     d <> DecNone ->
     Filter m name tags st = Ok (d, st2)) /\
  (forall st1,
     all_none name tags m st st1 ->
     Filter m name tags st = Ok (DecNone, st1)) /\
  (forall d st',
     Filter m name tags st = Ok (d, st') ->
     (d = DecNone /\ all_none name tags m st st') \/
     (d <> DecNone /\
      exists pre f post st1,
        m = pre ++ f :: post /\
        all_none name tags pre st st1 /\
        f name tags st1 = Ok (d, st'))).
Proof.
  split_and!.
  - intros pre f post st1 d st2 -> Hpre Hf Hd.
    induction Hpre as [st0|f0 pre st0 st1 st1' Hf0 _ IH].
    + cbn. rewrite Hf. cbn. by destruct d.
    + cbn. rewrite Hf0. cbn. by apply IH.
  - intros st1 Hnone.
    induction Hnone as [st0|f0 pre st0 st1 st1' Hf0 _ IH]; [done|].
    cbn. rewrite Hf0. cbn. apply IH.
  - revert st. induction m as [|f m IH]; intros st d st' Hrun.
    + injection Hrun as <- <-. left. split; [done|constructor].
    + cbn in Hrun. destruct (f name tags st) as [[d0 st0]| |] eqn:Hf; try done.
      cbn in Hrun. destruct d0.
      * cbn in Hrun. destruct (IH _ _ _ Hrun) as [[-> Hnone]|[Hd Hsplit]].
        -- left. split; [done|]. by econstructor.
        -- right. split; [done|].
           destruct Hsplit as (pre & g & post & st1 & -> & Hpre & Hg).
           exists (f :: pre), g, post, st1. split; [done|].
           split; [by econstructor|done].
      * injection Hrun as <- <-. right. split; [done|].
        exists [], f, m, st. split; [done|]. split; [constructor|done].
      * injection Hrun as <- <-. right. split; [done|].
        exists [], f, m, st. split; [done|]. split; [constructor|done].
Qed.
End CombinatorProofs.

(** ** The filter order *)
Section OrderProofs.
Context `{C : Collaborators}.

Local Arguments String.eqb : simpl never.

Lemma ltb_lt (a b : string) : String.ltb a b = true <-> String_as_OT.lt a b.
Proof.
  unfold String.ltb. rewrite <- String_as_OT.cmp_lt. unfold String_as_OT.cmp.
  destruct (String.compare a b); split; done.
Qed.

Lemma compare_refl (a : string) : String.compare a a = Eq.
Proof. by apply (String_as_OT.cmp_eq a a). Qed.

Lemma ltb_irrefl (a : string) : String.ltb a a = false.
Proof. unfold String.ltb. by rewrite compare_refl. Qed.

Lemma ltb_trans (a b c : string) :
  String.ltb a b = true -> String.ltb b c = true -> String.ltb a c = true.
Proof. rewrite !ltb_lt. apply String_as_OT.lt_trans. Qed.

Lemma ltb_trichotomy (a b : string) :
  String.ltb a b = true \/ a = b \/ String.ltb b a = true.
Proof.
  unfold String.ltb. rewrite (String.compare_antisym b a).
  destruct (String.compare a b) eqn:Hc; cbn; auto.
  right; left. by apply String.compare_eq_iff.
Qed.

Lemma leb_ltb (a b : string) :
  String.leb a b = true <-> String.ltb a b = true \/ a = b.
Proof.
  unfold String.leb, String.ltb.
  destruct (String.compare a b) eqn:Hc; split; auto; try done.
  - intros _. right. by apply String.compare_eq_iff.
  - intros [ ? | -> ]; [done|].
    by rewrite compare_refl in Hc.
Qed.

Lemma costByOperator_inj (o1 o2 : ExpressionOperator) :
  costByOperator o1 = costByOperator o2 -> o1 = o2.
Proof. by destruct o1, o2. Qed.

(** [less] is the strict part of the filter order. *)
Lemma less_spec (x y : Expression) :
  less x y = true <->
  (costByOperator (GetOperator x) < costByOperator (GetOperator y))%Z \/
  (GetOperator x = GetOperator y /\
   (String.ltb (GetKey x) (GetKey y) = true \/
    (GetKey x = GetKey y /\ String.ltb (GetValue x) (GetValue y) = true))).
Proof.
  unfold less. case_decide as Hop.
  - destruct (String.eqb_spec (GetKey x) (GetKey y)) as [Hk|Hk].
    + split; [by auto|]. intros [Hlt|[_ [Hlt|[_ ?]]]]; [|..|done].
      * rewrite Hop in Hlt. lia.
      * rewrite Hk, ltb_irrefl in Hlt. done.
    + split; [by auto|]. intros [Hlt|[_ [?|[? _]]]]; [|done..].
      rewrite Hop in Hlt. lia.
  - rewrite Z.ltb_lt. split; [by auto|]. by intros [?|[? _]].
Qed.

Lemma less_false (x y : Expression) :
  less y x = false <-> filter_order_le x y.
Proof.
  unfold filter_order_le, rank, rank_le.
  rewrite <- not_true_iff_false, less_spec, leb_ltb.
  pose proof (ltb_trichotomy (GetKey x) (GetKey y)) as Hk.
  pose proof (ltb_trichotomy (GetValue x) (GetValue y)) as Hv.
  pose proof (ltb_irrefl (GetKey x)) as Hki.
  pose proof (ltb_irrefl (GetValue x)) as Hvi.
  split.
  - intros Hnot.
    destruct (Z.lt_trichotomy (costByOperator (GetOperator x))
                (costByOperator (GetOperator y))) as [?|[Hc|?]]; [by left| |].
    + right. split; [done|]. apply costByOperator_inj in Hc.
      destruct Hk as [?|[Hk|?]]; [by left| |].
      * right. split; [done|].
        destruct Hv as [?|[?|?]]; [by left|by right|].
        exfalso. apply Hnot. right. split; [done|]. right. by split.
      * exfalso. apply Hnot. right. split; [done|]. by left.
    + exfalso. apply Hnot. by left.
  - intros [Hlt|[Hc Hrest]] [Hlt'|[Hop Hrest']].
    + lia.
    + rewrite Hop in Hlt. lia.
    + lia.
    + destruct Hrest as [Hklt|[Hkeq Hvle]], Hrest' as [Hklt'|[Hkeq' Hvlt']].
      * pose proof (ltb_trans _ _ _ Hklt Hklt') as Hbad. congruence.
      * rewrite Hkeq' in Hklt. congruence.
      * rewrite Hkeq in Hklt'. congruence.
      * destruct Hvle as [Hvlt|Hveq].
        -- pose proof (ltb_trans _ _ _ Hvlt Hvlt') as Hbad. congruence.
        -- rewrite Hveq in Hvlt'. congruence.
Qed.

Global Instance rank_le_refl : Reflexive rank_le.
Proof.
  intros [[c k] v]. right. split; [done|]. right. split; [done|].
  apply leb_ltb. by right.
Qed.

Global Instance rank_le_trans : Transitive rank_le.
Proof.
  intros [[c1 k1] v1] [[c2 k2] v2] [[c3 k3] v3]. unfold rank_le.
  rewrite !leb_ltb.
  intros [?|[-> H12]] [?|[-> H23]]; [left; lia..|]. right. split; [done|].
  destruct H12 as [?|[-> Hv12]], H23 as [?|[-> Hv23]];
    [left; by eapply ltb_trans|by left|by left|].
  right. split; [done|].
  destruct Hv12 as [?| ->], Hv23 as [?| ->]; eauto using ltb_trans.
Qed.

Global Instance rank_le_total : Total rank_le.
Proof.
  intros [[c1 k1] v1] [[c2 k2] v2]. unfold rank_le. rewrite !leb_ltb.
  destruct (Z.lt_trichotomy c1 c2) as [?|[->|?]]; [by left; left| |by right; left].
  destruct (ltb_trichotomy k1 k2) as [?|[->|?]];
    [by left; right; split; [|left]| |by right; right; split; [|left]].
  destruct (ltb_trichotomy v1 v2) as [?|[->|?]].
  - left. right. split; [done|]. right. split; [done|]. by left.
  - left. right. split; [done|]. right. split; [done|]. by right.
  - right. right. split; [done|]. right. split; [done|]. by left.
Qed.

Global Instance rank_le_antisym : AntiSymm (=) rank_le.
Proof.
  intros [[c1 k1] v1] [[c2 k2] v2]. unfold rank_le. rewrite !leb_ltb.
  intros [?|[-> H12]] [?|[? H21]]; try lia.
  destruct H12 as [Hk12|[-> Hv12]], H21 as [Hk21|[? Hv21]].
  - pose proof (ltb_trans _ _ _ Hk12 Hk21) as Hbad.
    by rewrite ltb_irrefl in Hbad.
  - subst. by rewrite ltb_irrefl in Hk12.
  - by rewrite ltb_irrefl in Hk21.
  - destruct Hv12 as [Hv12| ->]; [|done]. destruct Hv21 as [Hv21| ->].
    + pose proof (ltb_trans _ _ _ Hv12 Hv21) as Hbad.
      by rewrite ltb_irrefl in Hbad.
    + by rewrite ltb_irrefl in Hv12.
Qed.

(** The function literal of [SortByFilterOrder] is an ordering of the kind
    [sort.Slice] expects. *)
Lemma less_is_ordering : less_ordering less.
Proof.
  split_and!.
  - intros a. apply less_false. unfold filter_order_le. reflexivity.
  - intros a b c Hab Hbc. apply not_false_iff_true. intros Hac%less_false.
    apply not_false_iff_true in Hab. apply Hab, less_false.
    destruct (total rank_le (rank b) (rank a)) as [?|Hle]; [done|].
    apply not_false_iff_true in Hbc. exfalso. apply Hbc, less_false.
    unfold filter_order_le in *. by etransitivity.
  - intros a b c Hab%less_false Hbc%less_false. apply less_false.
    unfold filter_order_le in *. by etransitivity.
Qed.

Lemma rank_eq_equal (x y : Expression) :
  rank x = rank y <-> ExpressionsAreEqual x y = true.
Proof.
  unfold rank, ExpressionsAreEqual.
  rewrite !andb_true_iff, !String.eqb_eq, bool_decide_eq_true.
  split.
  - intros [= Hc%costByOperator_inj Hk Hv]. done.
  - intros [[-> ->] ->]. done.
Qed.

(** What the parser builds is well formed. *)
Lemma build_expression_well_formed (expr : string) (c : expressionCommon)
    (o : ExpressionOperator) (e : Expression) :
  matchesEmpty c = false ->
  build_expression expr c o = Ok e -> well_formed e.
Proof.
  intros Hc. destruct (is_regex_operator o) eqn:Ho.
  - destruct (String.eqb_spec (value c) "") as [Hv|Hv].
    + unfold build_expression.
      rewrite decide_True by (destruct o; try discriminate Ho; auto).
      rewrite Hv. cbn. rewrite Hv.
      destruct (Compile "") eqn:Hcomp; [|done].
      destruct o; try discriminate Ho; intros [= <-]; split; cbn;
        rewrite ?Hv; eauto.
    + rewrite build_expression_regex by done.
      destruct (Compile _) eqn:Hcomp; [|done].
      destruct o; try discriminate Ho; intros [= <-]; split; cbn; eauto.
  - rewrite build_expression_plain by done.
    destruct o; try discriminate Ho; intros [= <-]; by split.
Qed.

Lemma parsed_well_formed (e : Expression) : parsed e -> well_formed e.
Proof.
  intros [text He]. rewrite ParseExpression_parts in He.
  destruct (key_malformed text); [done|].
  destruct (validateQueryExpressionTagKey _); [done|].
  destruct (operator_malformed text); [done|].
  unfold finish in He. destruct (has_semicolon _); [done|].
  destruct (String.eqb _ "__tag").
  - destruct (_ || _); [done|].
    by eapply build_expression_well_formed; [|exact He].
  - by eapply build_expression_well_formed; [|exact He].
Qed.

(** Well-formed expressions that are equal as expressions are the same. *)
Lemma well_formed_equal (x y : Expression) :
  well_formed x -> well_formed y -> ExpressionsAreEqual x y = true -> x = y.
Proof.
  intros [Hmx Hx] [Hmy Hy] [= Hop%costByOperator_inj Hk Hv]%rank_eq_equal.
  unfold GetKey, GetValue in *.
  assert (common_of x = common_of y) as Hc.
  { destruct (common_of x), (common_of y); cbn in *; congruence. }
  destruct x as [c|c|c re|c re|[c re]|c|c|c|c], y as [d|d|d rd|d rd|[d rd]|d|d|d|d];
    try discriminate Hop; cbn in *; subst; try done.
  - congruence.
  - destruct Hx as (r1 & -> & ?), Hy as (r2 & -> & ?). congruence.
  - congruence.
Qed.
End OrderProofs.

(** ** [SortByFilterOrder] under the contract of [sort.Slice] *)
Section SortProofs.
Context `{C : Collaborators}.
Variable sort_Slice : forall A : Type, list A -> (A -> A -> bool) -> list A.
Hypothesis sort_Slice_Permutation :
  forall (A : Type) (x : list A) (less : A -> A -> bool),
    sort_Slice A x less ≡ₚ x.
Hypothesis sort_Slice_sorted :
  forall (A : Type) (x : list A) (less : A -> A -> bool),
    less_ordering less ->
    StronglySorted (fun a b => less b a = false) (sort_Slice A x less).



End SortProofs.

(** ** [ParseExpressions], [Filter] on appended lists, [findInitialExpression] *)
Section CollectionProofs.
Context `{C : Collaborators}.

Lemma ParseExpression_no_panic (expr : string) : ParseExpression expr <> Panic.
Proof.
  rewrite ParseExpression_parts.
  destruct (key_malformed expr); [done|].
  destruct (validateQueryExpressionTagKey _); [done|].
  destruct (operator_malformed expr) eqn:Hop; [done|].
  rewrite finish_cases.
  2:{ unfold operator_malformed in Hop. apply orb_false_elim in Hop as [_ Hop].
      by rewrite andb_comm. }
  destruct (_ || _); [done|].
  destruct (text_regex expr && _) eqn:Hre.
  - unfold compiled. by destruct (Compile _).
  - by destruct (finish_plain_Ok expr (text_key expr) (text_not expr)
                   (text_prefix expr) (text_regex expr) (text_value expr) Hre)
      as [e ->].
Qed.

(** X1: [ParseExpressions] returns a collection exactly when every text
    parses, and the collection holds the expression of each text, in order. *)
Theorem ParseExpressions_Ok (expressions : list string) (res : list Expression) :
  ParseExpressions expressions = Ok res <->
  Forall2 (fun expr e => ParseExpression expr = Ok e) expressions res.
Proof.
  revert res. induction expressions as [|expr rest IH]; intros res.
  - cbn. split.
    + intros [= <-]. constructor.
    + by intros ->%Forall2_nil_inv_l.
  - cbn. split.
    + destruct (ParseExpression expr) as [e| |] eqn:He; try done. cbn.
      destruct (ParseExpressions rest) as [es| |] eqn:Hes; try done. cbn.
      intros [= <-]. constructor; [done|]. by apply IH.
    + intros (e & es & He & Hes & ->)%Forall2_cons_inv_l.
      rewrite He. cbn. apply IH in Hes. by rewrite Hes.
Qed.

(** X2: [ParseExpressions] never panics, and it returns an error exactly when
    some text fails to parse: the error of the first such text. *)
Theorem ParseExpressions_first_error (expressions : list string) :
  ParseExpressions expressions <> Panic /\
  (forall (pre : list string) (expr : string) (post : list string)
          (es : list Expression) (err : error),
     expressions = pre ++ expr :: post ->
     Forall2 (fun t e => ParseExpression t = Ok e) pre es ->
     ParseExpression expr = Err err ->
     ParseExpressions expressions = Err err) /\
  (forall err : error,
     ParseExpressions expressions = Err err ->
     exists (pre : list string) (expr : string) (post : list string)
            (es : list Expression),
       expressions = pre ++ expr :: post /\
       Forall2 (fun t e => ParseExpression t = Ok e) pre es /\
       ParseExpression expr = Err err).
Proof.
  split_and!.
  - induction expressions as [|expr rest IH]; [done|]. cbn.
    pose proof (ParseExpression_no_panic expr) as Hexpr.
    destruct (ParseExpression expr); try done. cbn.
    by destruct (ParseExpressions rest).
  - intros pre expr post es err -> Hpre Herr.
    induction Hpre as [|t e pre es Ht _ IH]; cbn.
    + by rewrite Herr.
    + rewrite Ht. cbn. by rewrite IH.
  - induction expressions as [|expr rest IH]; intros err; [done|]. cbn.
    destruct (ParseExpression expr) as [e|err'|] eqn:He; cbn; [| |done].
    + destruct (ParseExpressions rest) as [es|err'|] eqn:Hes; cbn; try done.
      intros [= <-]. destruct (IH err' eq_refl) as (pre & t & post & es & -> & Hpre & Ht).
      exists (expr :: pre), t, post, (e :: es). split; [done|].
      split; [by constructor|done].
    + intros [= <-]. exists [], expr, rest, []. split; [done|].
      split; [constructor|done].
Qed.

(** X3: [Filter] on two lists, one after the other, is [Filter] on the first
    and, when that returns [None], [Filter] on the second from the state the
    first leaves. *)
Theorem Filter_app {S : Type} (m1 m2 : list (MetricDefinitionFilter S))
    (name : string) (tags : list string) (st : S) :
  Filter (m1 ++ m2) name tags st
  = match Filter m1 name tags st with
    | Ok (DecNone, st1) => Filter m2 name tags st1
    | r => r
    end.
Proof.
  revert st. induction m1 as [|f m1 IH]; intros st; [done|]. cbn.
  destruct (f name tags st) as [[d st1]| |]; cbn; try done.
  destruct d; cbn; [apply IH|done|done].
Qed.

(** The inner loop returns a position from [i] on. *)
Lemma find_from_Some (op : ExpressionOperator) (e : list Expression) (i r : Z) :
  find_from op e i = Some r ->
  exists (n : nat) (x : Expression),
    r = (i + Z.of_nat n)%Z /\ e !! n = Some x /\ viable op x /\
    forall (j : nat) (y : Expression),
      (j < n)%nat -> e !! j = Some y -> ~ viable op y.
Proof.
  revert i. induction e as [|x e IH]; intros i; [done|]. cbn.
  destruct (bool_decide (GetOperator x = op) && RequiresNonEmptyValue x) eqn:Hx.
  - intros [= <-]. exists 0%nat, x. split; [lia|]. split; [done|].
    apply andb_prop in Hx as [?%bool_decide_eq_true ?].
    split; [done|]. intros; lia.
  - intros (n & y & -> & Hn & Hy & Hmin)%IH.
    exists (S n), y. split; [lia|]. split; [done|]. split; [done|].
    intros [|j] z Hj; cbn.
    + intros [= <-] [Hop Hreq]. by rewrite (bool_decide_eq_true_2 _ Hop), Hreq in Hx.
    + apply Hmin. lia.
Qed.

Lemma find_from_None (op : ExpressionOperator) (e : list Expression) (i : Z) :
  find_from op e i = None <-> Forall (fun x => ~ viable op x) e.
Proof.
  revert i. induction e as [|x e IH]; intros i; cbn; [by split|].
  destruct (bool_decide (GetOperator x = op) && RequiresNonEmptyValue x) eqn:Hx.
  - apply andb_prop in Hx as [?%bool_decide_eq_true ?]. split; [done|].
    intros [Hbad _]%Forall_cons. by destruct Hbad.
  - rewrite IH, Forall_cons. split; [|by intros [_ ?]]. intros He. split; [|done].
    intros [Hop Hreq]. by rewrite (bool_decide_eq_true_2 _ Hop), Hreq in Hx.
Qed.

Lemma find_preferred_spec (ops : list ExpressionOperator) (e : list Expression) :
  (find_preferred ops e = (-1)%Z /\
   forall op, op ∈ ops -> Forall (fun x => ~ viable op x) e)
  \/
  (exists (before : list ExpressionOperator) (op : ExpressionOperator)
          (after : list ExpressionOperator) (n : nat) (x : Expression),
     ops = before ++ op :: after /\
     find_preferred ops e = Z.of_nat n /\
     e !! n = Some x /\ viable op x /\
     (forall op', op' ∈ before -> Forall (fun y => ~ viable op' y) e) /\
     (forall (j : nat) (y : Expression),
        (j < n)%nat -> e !! j = Some y -> ~ viable op y)).
Proof.
  induction ops as [|op ops IH]; cbn.
  - left. split; [done|]. by intros op ?%elem_of_nil.
  - destruct (find_from op e 0) as [r|] eqn:Hfind.
    + right. apply find_from_Some in Hfind as (n & x & -> & Hn & Hx & Hmin).
      exists [], op, ops, n, x. split_and!; try done.
      by intros op' ?%elem_of_nil.
    + apply find_from_None in Hfind.
      destruct IH as [[Hr Hnone]|(before & op' & after & n & x & -> & Hr & Hn & Hx & Hb & Hmin)].
      * left. split; [done|]. intros op' [->|?]%elem_of_cons; auto.
      * right. exists (op :: before), op', after, n, x. split_and!; try done.
        intros op'' [->|?]%elem_of_cons; auto.
Qed.

(** X4: [findInitialExpression] returns -1 when no expression requires a
    non-empty value under one of the viable operators; otherwise it returns
    a position of the collection: the first expression that does so under
    the most preferred operator for which there is one. *)
Theorem findInitialExpression_preference (e : list Expression) :
  (findInitialExpression e = (-1)%Z /\
   forall op, op ∈ viable_operators -> Forall (fun x => ~ viable op x) e)
  \/
  (exists (before : list ExpressionOperator) (op : ExpressionOperator)
          (after : list ExpressionOperator) (n : nat) (x : Expression),
     viable_operators = before ++ op :: after /\
     findInitialExpression e = Z.of_nat n /\
     (n < length e)%nat /\
     e !! n = Some x /\ viable op x /\
     (forall op', op' ∈ before -> Forall (fun y => ~ viable op' y) e) /\
     (forall (j : nat) (y : Expression),
        (j < n)%nat -> e !! j = Some y -> ~ viable op y)).
Proof.
  destruct (find_preferred_spec viable_operators e)
    as [?|(before & op & after & n & x & ? & ? & Hn & ? & ? & ?)]; [by left|].
  right. exists before, op, after, n, x. split_and!; try done.
  by eapply lookup_lt_Some.
Qed.

(** X5: [findInitialExpression] never returns the position of a [NOT_MATCH]
    expression: the last operator of its preference list has no effect. *)
Theorem findInitialExpression_skips_NOT_MATCH (e : list Expression) :
  findInitialExpression e
  = find_preferred [EQUAL; HAS_TAG; PREFIX; PREFIX_TAG; MATCH; MATCH_TAG] e /\
  forall (n : nat) (x : Expression),
    findInitialExpression e = Z.of_nat n -> e !! n = Some x ->
    GetOperator x <> NOT_MATCH.
Proof.
  assert (Hdead : find_from NOT_MATCH e 0 = None).
  { apply find_from_None, Forall_forall. intros x _ [Hop Hreq]. by destruct x. }
  split.
  - unfold findInitialExpression, viable_operators. cbn.
    rewrite Hdead. by repeat destruct (find_from _ e 0).
  - intros n x Hn Hx.
    destruct (find_preferred_spec viable_operators e)
      as [[Hr _]|(_ & op & _ & n' & x' & _ & Hr & Hx' & [Hop Hreq] & _)];
      unfold findInitialExpression in Hn; rewrite Hr in Hn; [lia|].
    apply Nat2Z.inj in Hn as <-. rewrite Hx in Hx'. injection Hx' as <-.
    by destruct x.
Qed.
End CollectionProofs.

(** ** Round trips and invariants of parsed expressions *)
Section RoundTripProofs.
Context `{C : Collaborators}.

Local Arguments String.eqb : simpl never.
Local Arguments build_expression : simpl never.
Local Arguments derive_operator : simpl never.
Local Arguments Nat.eqb : simpl never.
Local Arguments finish : simpl never.

Lemma has_semicolon_app (a b : string) :
  has_semicolon (a +:+ b) = has_semicolon a || has_semicolon b.
Proof.
  induction a as [|c a IH]; [done|].
  rewrite app_cons. cbn. by rewrite IH, orb_assoc.
Qed.

Lemma anchored_starts (v : string) : starts_with "^" (anchored v) = true.
Proof. unfold anchored. by destruct (starts_with "^" v) eqn:Hv. Qed.

Lemma anchored_idem (v : string) : anchored (anchored v) = anchored v.
Proof. unfold anchored at 1. by rewrite anchored_starts. Qed.

Lemma anchored_not_empty (v : string) : anchored v <> "".
Proof. pose proof (anchored_starts v). by destruct (anchored v). Qed.

Lemma anchored_semicolon (v : string) :
  has_semicolon (anchored v) = has_semicolon v.
Proof.
  unfold anchored. destruct (starts_with "^" v); [done|].
  rewrite !has_semicolon_app. cbn. by rewrite orb_false_r.
Qed.

(** What an accepted text is made of, and what is built from it. *)
Lemma parsed_form (text : string) (e : Expression) :
  ParseExpression text = Ok e ->
  exists (k : string) (not prefix regex : bool) (v : string),
    canonical k not prefix regex v /\
    text = expression_text k not prefix regex v /\
    k <> "" /\ validateQueryExpressionTagKey k = None /\
    regex && prefix = false /\ has_semicolon v = false /\
    String.eqb k "__tag" && (not || String.eqb v "") = false /\
    if regex && negb (String.eqb v "") then
      compiled (if not then mkNotMatch
                else if String.eqb k "__tag" then mkMatchTag else Match)
        k (anchored v) = Ok e
    else
      build_expression text {| key := k; value := v; matchesEmpty := false |}
        (spec_tag_remap k (spec_operator not prefix regex (String.eqb v "")))
      = Ok e.
Proof.
  intros He.
  destruct (ParseExpression_decompose text e He)
    as (k & not & prefix & regex & v & Hcan & ->).
  exists k, not, prefix, regex, v. split; [done|]. split; [done|].
  rewrite ParseExpression_text in He by done. cbn zeta in He.
  rewrite length_eqb_0 in He.
  destruct (String.eqb_spec k "") as [|Hk]; [done|].
  destruct (validateQueryExpressionTagKey k) eqn:Hval; [done|].
  destruct (regex && prefix) eqn:Hflags; [done|].
  rewrite finish_cases in He by done.
  destruct (has_semicolon v) eqn:Hsemi; [done|]. cbn [orb] in He.
  destruct (String.eqb k "__tag" && (not || String.eqb v "")) eqn:Htag; [done|].
  split_and!; try done. by destruct (regex && negb (String.eqb v "")).
Qed.

Lemma parse_rebuilt (k : string) (not prefix regex : bool) (v : string)
    (e : Expression) :
  canonical k not prefix regex v ->
  k <> "" -> validateQueryExpressionTagKey k = None ->
  regex && prefix = false ->
  finish (expression_text k not prefix regex v) k not prefix regex v = Ok e ->
  ParseExpression (expression_text k not prefix regex v) = Ok e.
Proof.
  intros Hcan Hk Hval Hflags He. rewrite ParseExpression_text by done.
  cbn zeta. rewrite length_eqb_0. apply String.eqb_neq in Hk as ->.
  by rewrite Hval, Hflags.
Qed.

Lemma canonical_text_round_trip (text : string) (e : Expression) :
  ParseExpression text = Ok e -> ParseExpression (canonical_text e) = Ok e.
Proof.
  intros (k & not & prefix & regex & v & (Hkey & Hnp & Htilde) & -> & Hk & Hval
          & Hflags & Hsemi & Htag & He)%parsed_form.
  destruct (regex && negb (String.eqb v "")) eqn:Hre.
  - apply andb_prop in Hre as [-> Hv%negb_true_iff].
    rewrite andb_true_l in Hflags. subst prefix.
    rewrite Hv, orb_false_r in Htag.
    assert (canonical_text e = expression_text k not false true (anchored v)) as ->.
    { unfold compiled in He. destruct (Compile _); [|done].
      destruct not; [|destruct (String.eqb k "__tag")];
        injection He as <-; reflexivity. }
    rewrite ParseExpression_regex_text;
      [|done|done|done|apply anchored_not_empty|by rewrite anchored_semicolon].
    rewrite anchored_idem.
    destruct (String.eqb k "__tag"), not; done.
  - assert (Hplain : forall (n p : bool) (w : string) (x : Expression),
              n && p = false -> starts_with "~" w = false ->
              has_semicolon w = false ->
              String.eqb k "__tag" && (n || String.eqb w "") = false ->
              build_expression (expression_text k n p false w)
                {| key := k; value := w; matchesEmpty := false |}
                (spec_tag_remap k (spec_operator n p false (String.eqb w "")))
              = Ok x ->
              ParseExpression (expression_text k n p false w) = Ok x).
    { intros n p w x Hnp' Hw Hsemi' Htag' Hx.
      apply parse_rebuilt; [done|done|done|done|].
      rewrite finish_cases by done. by rewrite Hsemi', Htag'. }
    unfold spec_tag_remap in He.
    destruct (String.eqb_spec v "") as [->|Hv].
    + (* an empty value: HAS_TAG or NOT_HAS_TAG *)
      destruct (String.eqb k "__tag") eqn:Hktag;
        [by rewrite orb_true_r in Htag|].
      rewrite build_expression_plain in He by (by destruct not, prefix, regex).
      destruct not, prefix, regex; try discriminate Hnp; try discriminate Hflags;
        cbn in He; injection He as <-.
      all: first
        [ apply (Hplain true false ""); [done..|];
          unfold spec_tag_remap; rewrite Hktag; by rewrite build_expression_plain
        | apply (Hplain false false ""); [done..|];
          unfold spec_tag_remap; rewrite Hktag; by rewrite build_expression_plain ].
    + (* a value and no regex flag *)
      cbn [negb] in Hre. rewrite andb_true_r in Hre. subst regex.
      specialize (Htilde eq_refl). rewrite orb_false_r in Htag.
      pose proof (proj2 (String.eqb_neq v "") Hv) as Hv'.
      rewrite build_expression_plain in He
        by (by destruct (String.eqb k "__tag"), not, prefix).
      assert (canonical_text e = expression_text k not prefix false v) as ->.
      { destruct (String.eqb k "__tag"), not, prefix;
          try discriminate Hnp; try discriminate Htag;
          cbn in He; injection He as <-; reflexivity. }
      apply Hplain; [done|done|done|by rewrite Hv', orb_false_r|].
      unfold spec_tag_remap. rewrite Hv'.
      by rewrite build_expression_plain
        by (by destruct (String.eqb k "__tag"), not, prefix).
Qed.

(** X6: the text made of the key, the operator token and the value of a
    parsed expression parses to that same expression; for [NOT_MATCH] that
    text is what [StringIntoBuilder] writes into an empty builder. *)
Theorem ParseExpression_round_trip (text : string) (e : Expression) :
  ParseExpression text = Ok e ->
  ParseExpression (canonical_text e) = Ok e /\
  forall e' : expressionNotMatch,
    e = NotMatch e' ->
    ParseExpression (expressionNotMatch_StringIntoBuilder e' "") = Ok e.
Proof.
  intros He. split; [by eapply canonical_text_round_trip|].
  intros e' ->. apply canonical_text_round_trip in He.
  unfold expressionNotMatch_StringIntoBuilder.
  by rewrite app_nil_l, app_assoc_string.
Qed.

Lemma StringIntoBuilder_empty (e : Expression) :
  StringIntoBuilder e "" = canonical_text e.
Proof.
  unfold canonical_text.
  destruct e; cbn; unfold expressionNotMatch_StringIntoBuilder;
    by rewrite app_nil_l, app_assoc_string.
Qed.

(** X7: [Strings] returns one text per expression, in order, each written
    into the reset builder; parsing the texts of a collection of parsed
    expressions returns the collection. *)
Theorem Strings_round_trip (e : list Expression) :
  length (Strings e) = length e /\
  (forall (i : nat) (x : Expression),
     e !! i = Some x -> Strings e !! i = Some (canonical_text x)) /\
  (Forall parsed e -> ParseExpressions (Strings e) = Ok e).
Proof.
  unfold Strings. split_and!.
  - induction e as [|x e IH]; [done|]. cbn. by rewrite IH.
  - induction e as [|x e IH]; intros i y; [done|].
    destruct i as [|i]; cbn.
    + intros [= <-]. by rewrite StringIntoBuilder_empty.
    + apply IH.
  - induction 1 as [|x e [text Hx] _ IH]; [done|].
    cbn. rewrite StringIntoBuilder_empty.
    rewrite (canonical_text_round_trip text x Hx). cbn. by rewrite IH.
Qed.

Lemma text_key_is_key (s : string) :
  has_semicolon (text_key s) = false -> is_key (text_key s) = true.
Proof.
  induction s as [|c s IH]; [done|]. cbn.
  destruct (terminator c) eqn:Hc; [done|]. cbn.
  intros [Hsemi Hrest]%orb_false_elim.
  rewrite stop_byte_terminator, Hc, Hsemi. cbn. by apply IH.
Qed.

(** What is built from an accepted text, in the parts of the text. *)
Lemma parsed_parts (text : string) (e : Expression) :
  ParseExpression text = Ok e ->
  let k := text_key text in
  let v := text_value text in
  has_semicolon k = false /\ k <> "" /\
  validateQueryExpressionTagKey k = None /\
  has_semicolon v = false /\
  String.eqb k "__tag" && (text_not text || String.eqb v "") = false /\
  if text_regex text && negb (String.eqb v "") then
    compiled (if text_not text then mkNotMatch
              else if String.eqb k "__tag" then mkMatchTag else Match)
      k (anchored v) = Ok e
  else
    build_expression text {| key := k; value := v; matchesEmpty := false |}
      (spec_tag_remap k
         (spec_operator (text_not text) (text_prefix text) (text_regex text)
            (String.eqb v ""))) = Ok e.
Proof.
  intros He. cbn zeta. rewrite ParseExpression_parts in He.
  destruct (key_malformed text) eqn:Hkey; [done|].
  unfold key_malformed in Hkey. apply orb_false_elim in Hkey as [Hsemi Hk].
  apply String.eqb_neq in Hk.
  destruct (validateQueryExpressionTagKey _) eqn:Hval; [done|].
  destruct (operator_malformed text) eqn:Hop; [done|].
  rewrite finish_cases in He.
  2:{ unfold operator_malformed in Hop. apply orb_false_elim in Hop as [_ Hop].
      by rewrite andb_comm. }
  destruct (has_semicolon (text_value text)) eqn:Hvsemi; [done|]. cbn [orb] in He.
  destruct (String.eqb (text_key text) "__tag" && _) eqn:Htag; [done|].
  split_and!; try done. by destruct (text_regex text && _).
Qed.

(** X8: what every expression returned by [ParseExpression] satisfies: its key
    is the text before the operator, not empty, free of [=], [!], [^], [;]
    and accepted by validation; its value holds no [;] and is empty exactly
    for [HAS_TAG] and [NOT_HAS_TAG]; the value of a regex operator is the
    anchored text of the value and begins with [^], the other operators keep
    the text; the regex is the compiled value and [matchesEmpty] is false;
    the key [__tag] goes with [EQUAL], [PREFIX_TAG] and [MATCH_TAG] only, and
    the two tag operators go with no other key. *)
Theorem parsed_expression_invariants (text : string) (e : Expression) :
  ParseExpression text = Ok e ->
  GetKey e = text_key text /\
  GetKey e <> "" /\ is_key (GetKey e) = true /\
  validateQueryExpressionTagKey (GetKey e) = None /\
  has_semicolon (GetValue e) = false /\
  (GetValue e = "" <-> GetOperator e = HAS_TAG \/ GetOperator e = NOT_HAS_TAG) /\
  (is_regex_operator (GetOperator e) = true ->
   GetValue e = anchored (text_value text) /\
   starts_with "^" (GetValue e) = true) /\
  (is_regex_operator (GetOperator e) = false -> GetValue e = text_value text) /\
  well_formed e /\
  (GetKey e = "__tag" ->
   GetOperator e = EQUAL \/ GetOperator e = PREFIX_TAG \/
   GetOperator e = MATCH_TAG) /\
  (GetOperator e = PREFIX_TAG \/ GetOperator e = MATCH_TAG ->
   GetKey e = "__tag").
Proof.
  intros He. pose proof (parsed_well_formed e (ex_intro _ text He)) as Hwf.
  apply parsed_parts in He. cbn zeta in He.
  destruct He as (Hsemi & Hk & Hval & Hvsemi & Htag & He).
  set (k := text_key text) in *. set (v := text_value text) in *.
  assert (Hiskey : is_key k = true) by by apply text_key_is_key.
  destruct (text_regex text && negb (String.eqb v "")) eqn:Hre.
  - apply andb_prop in Hre as [Hregex Hv%negb_true_iff].
    rewrite Hv, orb_false_r in Htag.
    unfold compiled in He. destruct (Compile _); [|done].
    pose proof (anchored_not_empty v) as Hne.
    pose proof (anchored_starts v) as Hst.
    pose proof (anchored_semicolon v) as Hsc. rewrite Hvsemi in Hsc.
    destruct (text_not text), (String.eqb_spec k "__tag");
      try discriminate Htag; injection He as <-; cbn;
      unfold expressionNotMatch_GetOperator;
      split_and!; try done; try (intuition (auto; congruence)).
  - unfold spec_tag_remap in He.
    rewrite build_expression_plain in He
      by (by destruct (String.eqb k "__tag"), (text_not text), (text_prefix text),
               (text_regex text), (String.eqb v "")).
    destruct (String.eqb_spec v "") as [Hv|Hv];
      destruct (String.eqb_spec k "__tag"), (text_not text), (text_prefix text),
        (text_regex text);
      try discriminate Htag; try discriminate Hre;
      cbn in He; injection He as <-; cbn;
      split_and!; try done; try (intuition (auto; congruence)).
Qed.
End RoundTripProofs.

(** ** Equality of expressions and the order of [less] *)
Section EqualityProofs.
Context `{C : Collaborators}.

(** X9: [ExpressionsAreEqual] is reflexive, symmetric and transitive, and two
    parsed expressions are equal in its sense exactly when they are the same
    expression, regex included. *)
Theorem ExpressionsAreEqual_equivalence :
  (forall e : Expression, ExpressionsAreEqual e e = true) /\
  (forall e1 e2 : Expression,
     ExpressionsAreEqual e1 e2 = ExpressionsAreEqual e2 e1) /\
  (forall e1 e2 e3 : Expression,
     ExpressionsAreEqual e1 e2 = true -> ExpressionsAreEqual e2 e3 = true ->
     ExpressionsAreEqual e1 e3 = true) /\
  (forall e1 e2 : Expression,
     parsed e1 -> parsed e2 ->
     (ExpressionsAreEqual e1 e2 = true <-> e1 = e2)).
Proof.
  split_and!.
  - intros e. by apply rank_eq_equal.
  - intros e1 e2. apply eq_true_iff_eq. rewrite <- !rank_eq_equal. by split.
  - intros e1 e2 e3. rewrite <- !rank_eq_equal. congruence.
  - intros e1 e2 H1%parsed_well_formed H2%parsed_well_formed. split.
    + by apply well_formed_equal.
    + intros ->. by apply rank_eq_equal.
Qed.

(** X10: the function literal that [SortByFilterOrder] sorts by is a strict
    order, and it leaves two expressions unordered exactly when
    [ExpressionsAreEqual] holds of them. *)
Theorem less_strict_total_order :
  (forall x : Expression, less x x = false) /\
  (forall x y : Expression, less x y = true -> less y x = false) /\
  (forall x y z : Expression,
     less x y = true -> less y z = true -> less x z = true) /\
  (forall x y : Expression,
     less x y = false /\ less y x = false <-> ExpressionsAreEqual x y = true) /\
  (forall x y : Expression,
     less x y = true \/ ExpressionsAreEqual x y = true \/ less y x = true).
Proof.
  destruct less_is_ordering as (Hirr & Htrans & _).
  assert (Hasym : forall x y : Expression, less x y = true -> less y x = false).
  { intros x y Hxy. destruct (less y x) eqn:Hyx; [|done].
    by rewrite <- (Hirr x), (Htrans x y x). }
  assert (Htie : forall x y : Expression,
            less x y = false /\ less y x = false <-> ExpressionsAreEqual x y = true).
  { intros x y. rewrite <- rank_eq_equal, !less_false. unfold filter_order_le.
    split.
    - intros [Hyx Hxy]. by apply (anti_symm rank_le).
    - intros ->. by split. }
  split_and!; try done.
  intros x y. destruct (less x y) eqn:Hxy; [by left|].
  destruct (less y x) eqn:Hyx; [by right; right|].
  right; left. by apply Htie.
Qed.
End EqualityProofs.

(** ** The cache of the filter, call after call *)
Section CacheProofs.
Context `{C : Collaborators}.

Local Arguments String.eqb : simpl never.

Lemma int32_range (z : Z) : (- 2 ^ 31 <= int32 z < 2 ^ 31)%Z.
Proof.
  unfold int32.
  pose proof (Z.mod_pos_bound (z + 2 ^ 31) (2 ^ 32) ltac:(lia)). lia.
Qed.

Lemma int32_small (z : Z) : (- 2 ^ 31 <= z < 2 ^ 31)%Z -> int32 z = z.
Proof. intros Hz. unfold int32. rewrite Z.mod_small; lia. Qed.

Lemma size_insert_le (v : string) (X : gset string) :
  (size ({[ v ]} ∪ X) <= S (size X))%nat.
Proof.
  rewrite size_union_alt, size_singleton. apply le_n_S, subseteq_size.
  by intros x [? _]%elem_of_difference.
Qed.

Lemma store_match_bounded (v : string) (st : Cache) :
  cache_bounded st -> cache_bounded (store_match v st).
Proof.
  intros (Hm & Hs & Hsm & Hss). unfold store_match.
  destruct (Z.ltb_spec (currentMatchCacheSize st) (int32 matchCacheSize)) as [Hlt|];
    [|done].
  pose proof (int32_range matchCacheSize).
  pose proof (size_insert_le v (matchCache st)).
  unfold cache_bounded.
  cbn [matchCache missCache currentMatchCacheSize currentMissCacheSize].
  rewrite (int32_small (currentMatchCacheSize st + 1)) by lia. lia.
Qed.

Lemma store_miss_bounded (v : string) (st : Cache) :
  cache_bounded st -> cache_bounded (store_miss v st).
Proof.
  intros (Hm & Hs & Hsm & Hss). unfold store_miss.
  destruct (Z.ltb_spec (currentMissCacheSize st) (int32 matchCacheSize)) as [Hlt|];
    [|done].
  pose proof (int32_range matchCacheSize).
  pose proof (size_insert_le v (missCache st)).
  unfold cache_bounded.
  cbn [matchCache missCache currentMatchCacheSize currentMissCacheSize].
  rewrite (int32_small (currentMissCacheSize st + 1)) by lia. lia.
Qed.

Lemma filter_cache_step (e : expressionNotMatch) (name : string)
    (tags : list string) (st st' : Cache) (d : FilterDecision) :
  expressionNotMatch_GetMetricDefinitionFilter e name tags st = Ok (d, st') ->
  (key (common e) = "name" -> st' = st) /\ cache_step st st'.
Proof.
  unfold expressionNotMatch_GetMetricDefinitionFilter, cache_step.
  destruct (String.eqb_spec (key (common e)) "name") as [Hname|Hname].
  { destruct (String.eqb (value (common e)) "").
    - intros [= _ <-]. auto.
    - destruct (MatchString _ _); intros [= _ <-]; auto. }
  intros Hscan. split; [done|].
  induction tags as [|t tags IH]; [injection Hscan as _ <-; by left|].
  cbn [scan_tags] in Hscan.
  destruct (HasPrefix t _) eqn:Ht; cbn [negb] in Hscan; [|by apply IH].
  destruct (String.eqb (value (common e)) ""); [injection Hscan as _ <-; by left|].
  destruct (prefix_exists _ _ Ht) as [v ->]. rewrite slice_suffix in Hscan.
  cbn [mbind outcome_bind] in Hscan.
  case_bool_decide as Hmiss; [injection Hscan as _ <-; by left|].
  case_bool_decide as Hmatch; [injection Hscan as _ <-; by left|].
  destruct (MatchString _ _); injection Hscan as _ <-; right; exists v; auto.
Qed.

Lemma reachable_cache_bounded (e : expressionNotMatch) (st : Cache) :
  reachable e st -> cache_bounded st.
Proof.
  induction 1 as [|st st' name tags d _ IH Hcall].
  - unfold cache_bounded. cbn. rewrite size_empty.
    pose proof (int32_range matchCacheSize). lia.
  - apply filter_cache_step in Hcall as [_ [->|(v & _ & _ & [->| ->])]];
      [done|by apply store_match_bounded|by apply store_miss_bounded].
Qed.

(** X11: in every state that calls lead to from the empty cache, each cache
    holds at most [int32(matchCacheSize)] values (none when that is
    negative), the counters stay within that bound (their increments never
    wrap around), and no value is in both caches; a call keeps what the
    caches hold, adds at most one value, and under the key [name] leaves the
    state as it is. *)
Theorem cache_invariants (e : expressionNotMatch) (st : Cache) :
  reachable e st ->
  (Z.of_nat (size (matchCache st)) <= Z.max 0 (int32 matchCacheSize))%Z /\
  (Z.of_nat (size (missCache st)) <= Z.max 0 (int32 matchCacheSize))%Z /\
  (0 <= currentMatchCacheSize st <= Z.max 0 (int32 matchCacheSize))%Z /\
  (0 <= currentMissCacheSize st <= Z.max 0 (int32 matchCacheSize))%Z /\
  matchCache st ## missCache st /\
  forall (name : string) (tags : list string) (d : FilterDecision) (st' : Cache),
    expressionNotMatch_GetMetricDefinitionFilter e name tags st = Ok (d, st') ->
    matchCache st ⊆ matchCache st' /\ missCache st ⊆ missCache st' /\
    (size (matchCache st') + size (missCache st')
     <= S (size (matchCache st) + size (missCache st)))%nat /\
    (key (common e) = "name" -> st' = st).
Proof.
  intros Hreach.
  destruct (reachable_cache_bounded e st Hreach) as (Hm & Hs & Hsm & Hss).
  destruct (reachable_cache_ok e st Hreach) as [Hmatch Hmiss].
  split_and!; try lia.
  - intros v Hv1 Hv2. apply Hmatch in Hv1. apply Hmiss in Hv2. congruence.
  - intros name tags d st' [Hname Hstep]%filter_cache_step.
    split_and!; [| | |done].
    + destruct Hstep as [->|(v & _ & _ & [->| ->])]; [done| |];
        unfold store_match, store_miss; destruct (_ <? _)%Z; cbn;
        first [done | by intros x ?; apply elem_of_union; right].
    + destruct Hstep as [->|(v & _ & _ & [->| ->])]; [done| |];
        unfold store_match, store_miss; destruct (_ <? _)%Z; cbn;
        first [done | by intros x ?; apply elem_of_union; right].
    + destruct Hstep as [->|(v & _ & _ & [->| ->])]; [lia| |];
        unfold store_match, store_miss; destruct (_ <? _)%Z; cbn; try lia.
      * pose proof (size_insert_le v (matchCache st)). lia.
      * pose proof (size_insert_le v (missCache st)). lia.
Qed.

(** X12: for a [NOT_MATCH] expression whose value is not empty, the conclusive
    decision of the filter is the verdict of [ValuePasses] on what it tests,
    the name under the key [name] and else the value of the first tag with
    the key: [Pass] when the value passes and [Fail] when it does not. *)
Theorem filter_agrees_with_ValuePasses (e : expressionNotMatch) (st : Cache)
    (name : string) (tags : list string) :
  reachable e st ->
  value (common e) <> "" ->
  (key (common e) = "name" ->
   exists st' : Cache,
     expressionNotMatch_GetMetricDefinitionFilter e name tags st
     = Ok (if expressionNotMatch_ValuePasses e name then Pass else Fail, st')) /\
  (key (common e) <> "name" ->
   forall (pre post : list string) (v : string),
     tags = pre ++ (key (common e) +:+ "=" +:+ v) :: post ->
     Forall (fun t => has_key e t = false) pre ->
     exists st' : Cache,
       expressionNotMatch_GetMetricDefinitionFilter e name tags st
       = Ok (if expressionNotMatch_ValuePasses e v then Pass else Fail, st')).
Proof.
  intros Hok%reachable_cache_ok Hv%String.eqb_neq.
  unfold expressionNotMatch_GetMetricDefinitionFilter, expressionNotMatch_ValuePasses.
  split.
  - intros ->%String.eqb_eq. rewrite Hv. exists st.
    by destruct (MatchString (valueRe e) name).
  - intros Hname%String.eqb_neq pre post v -> Hpre. rewrite Hname.
    rewrite scan_tags_skip by done. rewrite <- app_assoc_string.
    destruct (scan_tags_hit e v post st Hok) as (st' & Hhit & _).
    exists st'. rewrite Hhit. unfold value_decision. rewrite Hv.
    by destruct (MatchString (valueRe e) v).
Qed.
End CacheProofs.

(** ** The methods of [NOT_MATCH] *)
Section InterfaceProofs.
Context `{C : Collaborators}.

(** C1, amended: for every expression with operator [NOT_MATCH],
    [RequiresNonEmptyValue] returns false. *)
Theorem NOT_MATCH_RequiresNonEmptyValue (e : Expression) :
  GetOperator e = NOT_MATCH -> RequiresNonEmptyValue e = false.
Proof. by destruct e. Qed.

(** X13: [ParseExpression] leaves [matchesEmpty] at its zero value, so the
    default decision of a parsed [NOT_MATCH] expression is [Pass] whatever
    its pattern matches. *)
Lemma GetDefaultDecision_of_parsed (text : string) (e : expressionNotMatch) :
  ParseExpression text = Ok (NotMatch e) ->
  expressionNotMatch_GetDefaultDecision e = Pass.
Proof.
  intros He. destruct (parsed_well_formed (NotMatch e)) as [Hm _]; [by exists text|].
  unfold expressionNotMatch_GetDefaultDecision. cbn in Hm. by rewrite Hm.
Qed.
End InterfaceProofs.

(** ** Concrete inputs, evaluated with the reference collaborators *)
Section Concrete.

Local Existing Instance Reference.collaborators.

(** The scenarios of the specification. *)
Example parse_equal :
  ParseExpression "host=web01"
  = Ok (Equal {| key := "host"; value := "web01"; matchesEmpty := false |}).
Proof. vm_compute. reflexivity. Qed.

Example parse_empty_text :
  ParseExpression "" = Err (invalidExpressionError "").
Proof. vm_compute. reflexivity. Qed.

Example parse_empty_key :
  ParseExpression "=value" = Err (invalidExpressionError "=value").
Proof. vm_compute. reflexivity. Qed.

Example parse_tag_prefix :
  ParseExpression "__tag^=ho"
  = Ok (PrefixTag {| key := "__tag"; value := "ho"; matchesEmpty := false |}).
Proof. vm_compute. reflexivity. Qed.

Example parse_tag_not :
  ParseExpression "__tag!=x" = Err (invalidExpressionError "__tag!=x").
Proof. vm_compute. reflexivity. Qed.

Example parse_semicolon :
  ParseExpression "a=b;c" = Err (invalidExpressionError "a=b;c").
Proof. vm_compute. reflexivity. Qed.

Example parse_bad_regex :
  ParseExpression "a=~(" = Err "error parsing regexp: ^(?:()".
Proof. vm_compute. reflexivity. Qed.

Example filter_scenario :
  exists e : expressionNotMatch,
    ParseExpression "host!=~^web.*" = Ok (NotMatch e) /\
    fst <$> expressionNotMatch_GetMetricDefinitionFilter e "cpu" ["host=web01"]
              Cache_zero = Ok Fail /\
    fst <$> expressionNotMatch_GetMetricDefinitionFilter e "cpu" ["env=prod"]
              Cache_zero = Ok DecNone.
Proof.
  eexists. split; [vm_compute; reflexivity|]. split; vm_compute; reflexivity.
Qed.

Example Filter_short_circuit :
  let none : MetricDefinitionFilter unit := fun _ _ st => Ok (DecNone, st) in
  let fail : MetricDefinitionFilter unit := fun _ _ st => Ok (Fail, st) in
  let pass : MetricDefinitionFilter unit := fun _ _ st => Ok (Pass, st) in
  Filter [none; fail; pass] "cpu" [] tt = Ok (Fail, tt) /\
  Filter [none; none] "cpu" [] tt = Ok (DecNone, tt).
Proof. split; reflexivity. Qed.



(** C1 as stated fails: [RequiresNonEmptyValue] is not true on the
    [NOT_MATCH] expression parsed from [host!=~web.*]. *)
Lemma NOT_MATCH_RequiresNonEmptyValue_counterexample :
  exists e : Expression,
    ParseExpression "host!=~web.*" = Ok e /\
    GetOperator e = NOT_MATCH /\ RequiresNonEmptyValue e <> true.
Proof.
  eexists. split; [vm_compute; reflexivity|]. split; [reflexivity|discriminate].
Qed.

Lemma NOT_MATCH_RequiresNonEmptyValue_witness :
  exists e : Expression,
    ParseExpression "host!=~web.*" = Ok e /\ RequiresNonEmptyValue e = false.
Proof.
  eexists. split; [vm_compute; reflexivity|].
  apply NOT_MATCH_RequiresNonEmptyValue. reflexivity.
Defined.

Lemma regex_value_is_rewritten_witness :
  exists e : Expression,
    ParseExpression "k!=~foo" = Ok e /\ GetValue e = "^(?:foo)".
Proof.
  eexists. split; [vm_compute; reflexivity|].
  apply (regex_value_is_rewritten "k" true "foo"); reflexivity.
Defined.

Lemma ParseExpression_anchoring_witness :
  ParseExpression "host!=~web.*" = compiled mkNotMatch "host" "^(?:web.*)" /\
  ParseExpression "host=~^web.*" = compiled Match "host" "^web.*".
Proof.
  split.
  - apply (ParseExpression_anchoring "host" "web.*");
      [reflexivity|discriminate|reflexivity|discriminate|reflexivity
      |reflexivity|discriminate].
  - apply (ParseExpression_anchoring "host" "^web.*");
      [reflexivity|discriminate|reflexivity|discriminate|reflexivity
      |reflexivity].
Defined.

Lemma ParseExpression_operator_table_witness :
  exists e : Expression,
    ParseExpression "__tag=~ho" = Ok e /\
    GetKey e = "__tag" /\ GetOperator e = MATCH_TAG.
Proof.
  destruct (ParseExpression "__tag=~ho") as [e| |] eqn:He;
    [|vm_compute in He; discriminate He..].
  exists e. split; [reflexivity|].
  apply (proj2 (ParseExpression_operator_table "__tag=~ho" e He)
           "__tag" false false true "ho").
  - repeat split; discriminate.
  - reflexivity.
Defined.

(** C7, on the code: the expression parsed from [tag!=~.*] has a pattern that
    matches the empty string, and its default decision is [Pass], where the
    claim (and the comment in [GetDefaultDecision]) says [Fail]. *)
Theorem GetDefaultDecision_pattern_matching_empty :
  exists e : expressionNotMatch,
    ParseExpression "tag!=~.*" = Ok (NotMatch e) /\
    MatchString (valueRe e) "" = true /\
    expressionNotMatch_GetDefaultDecision e = Pass.
Proof.
  eexists. split; [vm_compute; reflexivity|]. split; reflexivity.
Qed.

(** C6 as stated fails: under the key [name] an expression with an empty value
    passes a name that its pattern matches; and a tag list that holds
    [host=web1], which the pattern matches, passes when [host=db1] stands
    before it. *)
Lemma NotMatch_filter_decision_counterexample :
  (Compile "" = inl (valueRe Reference.name_without_value) /\
   MatchString (valueRe Reference.name_without_value) "cpu" = true /\
   expressionNotMatch_GetMetricDefinitionFilter Reference.name_without_value "cpu" []
     Cache_zero = Ok (Pass, Cache_zero)) /\
  (exists e : expressionNotMatch,
     ParseExpression "host!=~web.*" = Ok (NotMatch e) /\
     MatchString (valueRe e) "web1" = true /\
     exists st : Cache,
       expressionNotMatch_GetMetricDefinitionFilter e "cpu"
         ["host=db1"; "host=web1"] Cache_zero = Ok (Pass, st)).
Proof.
  split; [by split_and!|].
  eexists. split; [vm_compute; reflexivity|]. split; [reflexivity|].
  eexists. vm_compute. reflexivity.
Qed.

Lemma NotMatch_filter_decision_witness :
  exists (e : expressionNotMatch) (d : FilterDecision) (st' : Cache),
    ParseExpression "host!=~^web.*" = Ok (NotMatch e) /\
    expressionNotMatch_GetMetricDefinitionFilter e "cpu" ["host=web01"] Cache_zero
    = Ok (d, st').
Proof.
  destruct (ParseExpression "host!=~^web.*") as [[| | | |e| | | | ]| |] eqn:He;
    try (vm_compute in He; discriminate He).
  destruct (NotMatch_filter_decision e Cache_zero "cpu" ["host=web01"]
              (reachable_zero e)) as (d & st' & Hcall & _).
  by exists e, d, st'.
Defined.

Lemma NotMatch_filter_first_tag_witness :
  exists e : expressionNotMatch,
    ParseExpression "host!=~web.*" = Ok (NotMatch e) /\
    expressionNotMatch_GetMetricDefinitionFilter e "cpu"
      ["env=prod"; "host=db1"; "host=web1"] Cache_zero
    = expressionNotMatch_GetMetricDefinitionFilter e "cpu" ["host=db1"] Cache_zero.
Proof.
  destruct (ParseExpression "host!=~web.*") as [[| | | |e| | | | ]| |] eqn:He;
    try (vm_compute in He; discriminate He).
  exists e. split; [reflexivity|].
  vm_compute in He. injection He as <-.
  apply (NotMatch_filter_first_tag _ "cpu" ["env=prod"] "host=db1" ["host=web1"]).
  - discriminate.
  - by repeat constructor.
  - reflexivity.
Defined.





Lemma host_not_web_parsed :
  ParseExpression "host!=~web.*" = Ok (NotMatch Reference.host_not_web).
Proof. vm_compute. reflexivity. Qed.

Lemma ParseExpression_round_trip_witness :
  ParseExpression "host!=~web.*" = Ok (NotMatch Reference.host_not_web) /\
  canonical_text (NotMatch Reference.host_not_web) = "host!=~^(?:web.*)" /\
  ParseExpression "host!=~^(?:web.*)" = Ok (NotMatch Reference.host_not_web).
Proof.
  assert (Htext : canonical_text (NotMatch Reference.host_not_web)
                  = "host!=~^(?:web.*)") by (vm_compute; reflexivity).
  pose proof (proj1 (ParseExpression_round_trip "host!=~web.*" _
                       host_not_web_parsed)) as Hround.
  rewrite Htext in Hround.
  split; [exact host_not_web_parsed|]. split; [exact Htext|exact Hround].
Defined.

Lemma parsed_expression_invariants_witness :
  ParseExpression "host!=~web.*" = Ok (NotMatch Reference.host_not_web) /\
  GetKey (NotMatch Reference.host_not_web) = text_key "host!=~web.*" /\
  has_semicolon (GetValue (NotMatch Reference.host_not_web)) = false.
Proof.
  destruct (parsed_expression_invariants "host!=~web.*" _ host_not_web_parsed)
    as (Hkey & _ & _ & _ & Hsemi & _).
  split; [exact host_not_web_parsed|]. split; [exact Hkey|exact Hsemi].
Defined.

Lemma filter_agrees_with_ValuePasses_witness :
  exists st' : Cache,
    expressionNotMatch_GetMetricDefinitionFilter Reference.host_not_web "cpu"
      ["env=prod"; "host=web01"] Cache_zero
    = Ok (if expressionNotMatch_ValuePasses Reference.host_not_web "web01"
          then Pass else Fail, st').
Proof.
  assert (H1 : value (common Reference.host_not_web) <> "") by discriminate.
  assert (H2 : key (common Reference.host_not_web) <> "name") by discriminate.
  assert (H3 : Forall (fun t => has_key Reference.host_not_web t = false)
                 ["env=prod"])
    by (constructor; [vm_compute; reflexivity|constructor]).
  exact (proj2 (filter_agrees_with_ValuePasses Reference.host_not_web
                  Cache_zero "cpu" ["env=prod"; "host=web01"]
                  (reachable_zero _) H1) H2 ["env=prod"] [] "web01" eq_refl H3).
Defined.

Lemma GetDefaultDecision_of_parsed_witness :
  expressionNotMatch_GetDefaultDecision Reference.host_not_web = Pass.
Proof.
  apply (GetDefaultDecision_of_parsed "host!=~web.*").
  exact host_not_web_parsed.
Defined.

Lemma cache_invariants_witness :
  expressionNotMatch_GetMetricDefinitionFilter Reference.host_not_web "cpu"
    ["host=web01"] Cache_zero
  = Ok (Fail, store_match "web01" Cache_zero) /\
  "web01" ∈ matchCache (store_match "web01" Cache_zero) /\
  (Z.of_nat (size (matchCache (store_match "web01" Cache_zero)))
   <= Z.max 0 (int32 matchCacheSize))%Z /\
  matchCache (store_match "web01" Cache_zero)
    ## missCache (store_match "web01" Cache_zero).
Proof.
  assert (Hcall : expressionNotMatch_GetMetricDefinitionFilter
                    Reference.host_not_web "cpu" ["host=web01"] Cache_zero
                  = Ok (Fail, store_match "web01" Cache_zero))
    by (vm_compute; reflexivity).
  destruct (cache_invariants Reference.host_not_web _
              (reachable_call _ _ _ _ _ _ (reachable_zero _) Hcall))
    as (Hsize & _ & _ & _ & Hdisjoint & _).
  split; [exact Hcall|]. split; [|by split].
  vm_compute. reflexivity.
Defined.

(** [findInitialExpression] on the collection parsed from [a!=~x], [b=y]
    and [c!=], and on a collection of [NOT_MATCH] alone. *)
Example findInitialExpression_sample :
  findInitialExpression Reference.sample_collection = 1%Z /\
  findInitialExpression (take 1 Reference.sample_collection) = (-1)%Z.
Proof. split; vm_compute; reflexivity. Qed.

Example Strings_sample :
  Strings Reference.sample_collection = ["a!=~^(?:x)"; "b=y"; "c!="].
Proof. vm_compute. reflexivity. Qed.

End Concrete.
